(** * Nuclide: display paths, changed-files list, remote projects, Flow busy
      messages and two Mercurial service functions

    A shallow embedding of

    - [computeDisplayPaths] and [ChangedFilesList.render]
      (pkg/nuclide-ui/ChangedFilesList.js),
    - [RemoteProjectsService.createRemoteConnection]
      (the remote-projects service),
    - [serverStatusUpdatesToBusyMessages] (pkg/nuclide-flow/lib/main.js),
    - [fetchMergeConflicts] and [getConfigValueAsync] of the Mercurial
      service, of which the sources hold the test-suite only,

    together with the properties the specification states about them. *)

From Equations Require Import Equations.
From stdpp Require Import gmap strings list fin_maps.
From Stdlib Require Import Ascii ZArith Permutation.

Local Open Scope Z_scope.
Local Open Scope string_scope.
Local Open Scope list_scope.

(** ** JavaScript values and library functions used by the sources *)

Module Js.

(** [s.split(sep)] for a separator of one character: the pieces of [s]
    between the occurrences of [sep]; never empty ([""] splits to [[""]]). *)
Fixpoint split (sep : ascii) (s : string) : list string :=
  match s with
  | EmptyString => [EmptyString]
  | String c s' =>
      if Ascii.eqb c sep then EmptyString :: split sep s'
      else match split sep s' with
           | [] => [String c EmptyString]
           | seg :: segs => String c seg :: segs
           end
  end.

(** [l.join(sep)]. *)
Fixpoint join (sep : string) (l : list string) : string :=
  match l with
  | [] => EmptyString
  | [x] => x
  | x :: rest => x +:+ sep +:+ join sep rest
  end.

(** [l.slice(0, n)] for a count [n]: the first [n] elements, all of [l] when
    it has fewer. *)
Definition slice0 {A} (n : nat) (l : list A) : list A := take n l.

(** A number held in a property: the sources only ever store counts, and
    [NaN] is what [++] leaves when the old value is not a number. *)
Inductive JsNumber := Num (n : nat) | NaN.

(** The property names every object literal inherits from
    [Object.prototype]. *)
Definition Object_prototype_keys : list string :=
  [ "constructor"; "__defineGetter__"; "__defineSetter__"; "hasOwnProperty";
    "__lookupGetter__"; "__lookupSetter__"; "isPrototypeOf";
    "propertyIsEnumerable"; "toString"; "valueOf"; "__proto__";
    "toLocaleString" ].

Definition inherited (k : string) : bool :=
  bool_decide (k ∈ Object_prototype_keys).

(** What [o[k]] reads from an object literal [o] used as a map: an own
    property, else the member of [Object.prototype] of that name (a function
    or an object, never a number), else [undefined]. *)
Inductive JsValue := Undefined | Own (x : JsNumber) | Inherited.

Definition getProp (o : gmap string JsNumber) (k : string) : JsValue :=
  match o !! k with
  | Some x => Own x
  | None => if inherited k then Inherited else Undefined
  end.

(** The value [o[k]++] stores back: the successor of a count, [NaN] for
    anything that is not a number. *)
Definition increment (v : JsValue) : JsNumber :=
  match v with
  | Own (Num n) => Num (S n)
  | _ => NaN
  end.

(** [v === 1]. *)
Definition isOne (v : JsValue) : bool :=
  match v with
  | Own (Num 1) => true
  | _ => false
  end.

(** The result of a call that may throw, or of a promise that may reject. *)
Inductive Outcome (A : Type) :=
| Returns (a : A)
| Throws (e : string).
Arguments Returns {A} a.
Arguments Throws {A} e.

(** A [Map]: its entries in insertion order, the keys distinct. *)
Definition Map_get {V} (m : list (string * V)) (k : string) : option V :=
  snd <$> List.find (fun e => String.eqb (fst e) k) m.

Definition Map_keys {V} (m : list (string * V)) : list string := map fst m.

Definition Map_size {V} (m : list (string * V)) : nat := length m.

(** [l.map(f)] for a callback that may throw; the callback gets the element
    and its index. *)
Fixpoint mapWithIndex {A B} (f : A -> nat -> Outcome B) (index : nat)
    (l : list A) : Outcome (list B) :=
  match l with
  | [] => Returns []
  | x :: rest =>
      match f x index with
      | Throws e => Throws e
      | Returns y =>
          match mapWithIndex f (S index) rest with
          | Throws e => Throws e
          | Returns ys => Returns (y :: ys)
          end
      end
  end.

(** [nullthrows(x)]. *)
Definition nullthrows {A} (x : option A) : Outcome A :=
  match x with
  | Some a => Returns a
  | None => Throws "Got unexpected null or undefined"
  end.

(** Whether a character occurs in a string. *)
Fixpoint contains (c : ascii) (s : string) : bool :=
  match s with
  | EmptyString => false
  | String d s' => Ascii.eqb d c || contains c s'
  end.

End Js.

(** ** [computeDisplayPaths] (ChangedFilesList.js) *)

Module DisplayPaths.
Import Js.

(** The objects of the [displayPaths] array. *)
Record DisplayPath := mkDisplayPath {
  separator : ascii;
  pathParts : list string;
  depth : nat;
  done : bool
}.

(** [pathParts.slice(0, depth).join('/')], the key under which a display
    path is counted. *)
Definition suffixKey (dp : DisplayPath) : string :=
  join "/" (slice0 (depth dp) (pathParts dp)).

(** The body of the first [forEach]: count one occurrence of [path]. Under a
    name that [Object.prototype] has, [seenCount[path]] is not [null] even
    in the empty object, and [++] stores [NaN]. (Under [__proto__] the
    assignment stores nothing and the next read finds the prototype again,
    which the loop cannot tell from a stored [NaN]: neither is [null], and
    neither is [1].) *)
Definition countSeen (seenCount : gmap string JsNumber) (path : string)
  : gmap string JsNumber :=
  match getProp seenCount path with
  | Undefined => <[path := Num 1]> seenCount
  | v => <[path := increment v]> seenCount
  end.

(** The body of the second [forEach]: mark as done, or extend by one part. *)
Definition markOrExtend (seenCount : gmap string JsNumber) (dp : DisplayPath)
  : DisplayPath :=
  let path := suffixKey dp in
  if isOne (getProp seenCount path) || (depth dp =? length (pathParts dp))%nat
  then mkDisplayPath (separator dp) (pathParts dp) (depth dp) true
  else mkDisplayPath (separator dp) (pathParts dp) (S (depth dp)) (done dp).

(** The variables of the loop. [toProcess] holds references to objects of
    [displayPaths], here their indices: what the loop writes through
    [toProcess] is what the final [map] over [displayPaths] reads. *)
Record LoopState := mkLoopState {
  displayPaths : list DisplayPath;
  seenCount : gmap string JsNumber;
  currentDepth : Z;
  toProcess : list nat
}.

Definition countPass (objs : list DisplayPath) (refs : list nat)
    (sc : gmap string JsNumber) : gmap string JsNumber :=
  foldl (fun sc i =>
           match objs !! i with
           | Some dp => countSeen sc (suffixKey dp)
           | None => sc
           end) sc refs.

Definition markPass (sc : gmap string JsNumber) (refs : list nat)
    (objs : list DisplayPath) : list DisplayPath :=
  foldl (fun objs i => alter (markOrExtend sc) i objs) objs refs.

Definition notDone (objs : list DisplayPath) (i : nat) : bool :=
  match objs !! i with
  | Some dp => negb (done dp)
  | None => false
  end.

(** One execution of the body of the [while] loop. *)
Definition round (st : LoopState) : LoopState :=
  let sc := countPass (displayPaths st) (toProcess st) (seenCount st) in
  let objs := markPass sc (toProcess st) (displayPaths st) in
  {| displayPaths := objs;
     seenCount := ∅;
     currentDepth := currentDepth st + 1;
     toProcess := filter (fun i => notDone objs i) (toProcess st) |}.

(** The guard of the [while] loop. *)
Definition continues (maxDepth : Z) (st : LoopState) : Prop :=
  currentDepth st < maxDepth ∧ (0 < length (toProcess st))%nat.

#[global] Instance continues_dec maxDepth st : Decision (continues maxDepth st).
Proof. unfold continues. apply _. Defined.

(** The [while] loop. It recurses on the state after a round, which is no
    subterm: the distance of [currentDepth] to [maxDepth] decreases. *)
Equations? whileLoop (maxDepth : Z) (st : LoopState) : LoopState
  by wf (Z.to_nat (maxDepth - currentDepth st)) lt :=
  whileLoop maxDepth st with decide (continues maxDepth st) => {
    | left _ := whileLoop maxDepth (round st);
    | right _ := st }.
Proof. unfold continues in *. simpl. lia. Qed.

(** The final [map]: [pathParts.slice(0, depth).reverse()], then
    [.join(separator)]. *)
Definition displaySegments (dp : DisplayPath) : list string :=
  reverse (slice0 (depth dp) (pathParts dp)).

Definition displayString (dp : DisplayPath) : string :=
  join (String (separator dp) EmptyString) (displaySegments dp).

(** *** Notions for the statements about a round *)

(** How often [k] occurs in a list of keys. *)
Definition occurrences (k : string) (keys : list string) : nat :=
  length (filter (fun x => x = k) keys).

(** The keys the first [forEach] counts. *)
Definition keysOf (objs : list DisplayPath) (refs : list nat) : list string :=
  omap (fun i => suffixKey <$> objs !! i) refs.



(** What [seenCount] holds once [keys] have been counted: the number of
    occurrences, except under a name that [Object.prototype] has, where the
    first [++] left [NaN]. *)
Definition counted (keys : list string) (sc : gmap string JsNumber) : Prop :=
  forall k, sc !! k =
    match occurrences k keys with
    | O => None
    | S n => if inherited k then Some NaN else Some (Num (S n))
    end.

(** Whether the second [forEach] marks an object as done, in terms of the
    keys that were counted. *)
Definition isFinal (keys : list string) (dp : DisplayPath) : bool :=
  (bool_decide (occurrences (suffixKey dp) keys = 1%nat)
   && negb (inherited (suffixKey dp)))
  || (depth dp =? length (pathParts dp))%nat.

Definition markDone (dp : DisplayPath) : DisplayPath :=
  mkDisplayPath (separator dp) (pathParts dp) (depth dp) true.

Definition extend (dp : DisplayPath) : DisplayPath :=
  mkDisplayPath (separator dp) (pathParts dp) (S (depth dp)) (done dp).

Section WithSeparator.

(** [nuclideUri.pathSeparatorFor] is not among the sources. It yields the
    [sep] of Node's posix or win32 path module, one character, and is
    taken as a parameter. *)
Variable pathSeparatorFor : string -> ascii.

(** The segments of a path, as [path.split(separator)] cuts them. *)
Definition segments (path : string) : list string :=
  split (pathSeparatorFor path) path.

Definition initialDisplayPath (path : string) : DisplayPath :=
  let separator := pathSeparatorFor path in
  {| separator := separator;
     pathParts := reverse (split separator path);
     depth := 1;
     done := false |}.

Definition initialState (filePaths : list string) : LoopState :=
  let displayPaths := map initialDisplayPath filePaths in
  {| displayPaths := displayPaths;
     seenCount := ∅;
     currentDepth := 1;
     toProcess := seq 0 (length displayPaths) |}.

(** The objects of [displayPaths] when the loop has ended. *)
Definition finalDisplayPaths (filePaths : list string) (maxDepth : Z)
  : list DisplayPath :=
  displayPaths (whileLoop maxDepth (initialState filePaths)).

(** [maxDepth] is a JavaScript number; it is modelled as an integer. *)
Definition computeDisplayPaths (filePaths : list string) (maxDepth : Z)
  : list string :=
  map displayString (finalDisplayPaths filePaths maxDepth).

(** *** Notions for the statements about the loop *)

(** The last [k] segments of a path. *)
Definition lastSegments (k : nat) (path : string) : list string :=
  let segs := segments path in
  drop (length segs - k) segs.

(** The states the loop of [computeDisplayPaths filePaths] goes through:
    every object keeps the separator and the parts of its path; the objects
    [toProcess] refers to are not done and have the current depth; all
    others are done, at a smaller depth. *)
Record wfState (filePaths : list string) (st : LoopState) : Prop := {
  wf_length : length (displayPaths st) = length filePaths;
  wf_origin : forall i dp, displayPaths st !! i = Some dp ->
    exists p, filePaths !! i = Some p
      /\ separator dp = pathSeparatorFor p
      /\ pathParts dp = reverse (segments p);
  wf_depth : forall i dp, displayPaths st !! i = Some dp ->
    (1 <= depth dp <= length (pathParts dp))%nat;
  wf_active : forall i dp, displayPaths st !! i = Some dp ->
    i ∈ toProcess st ->
    Z.of_nat (depth dp) = currentDepth st /\ done dp = false;
  wf_final : forall i dp, displayPaths st !! i = Some dp ->
    i ∉ toProcess st ->
    Z.of_nat (depth dp) < currentDepth st /\ done dp = true;
  wf_nodup : NoDup (toProcess st);
  wf_refs : forall i, i ∈ toProcess st -> is_Some (displayPaths st !! i);
  wf_seen : seenCount st = ∅
}.

(** Paths whose last segment is no property name of [Object.prototype]. *)
Definition plainNames (filePaths : list string) : Prop :=
  Forall (fun p => forall b, last (segments p) = Some b ->
                             inherited b = false) filePaths.

(** Two indices that hold one path: their objects stay equal, they leave
    [toProcess] together, and only when the whole path is used. *)
Definition twins (i j : nat) (st : LoopState) : Prop :=
  displayPaths st !! i = displayPaths st !! j
  /\ (i ∈ toProcess st <-> j ∈ toProcess st)
  /\ (forall dp, displayPaths st !! i = Some dp -> i ∉ toProcess st ->
        depth dp = length (pathParts dp)).

(** Whether the last [k] segments of the path at index [i] are also the
    last [k] segments of a path at another index. *)
Definition sharedSuffix (filePaths : list string) (k i : nat) : Prop :=
  exists j p q,
    j <> i /\ filePaths !! i = Some p /\ filePaths !! j = Some q
    /\ (k <= length (segments q))%nat
    /\ lastSegments k q = lastSegments k p.

(** Paths none of whose segments has a slash in it, as is the case when the
    separator is the slash. *)
Definition slashFree (filePaths : list string) : Prop :=
  Forall (fun p => Forall (fun seg => contains "/" seg = false)
                     (segments p)) filePaths.

(** Why the objects have the depth they have: every shorter suffix is
    shared, and an object that is done has a suffix that is not shared or
    is the whole path. *)
Definition history (filePaths : list string) (st : LoopState) : Prop :=
  (forall i dp k, displayPaths st !! i = Some dp ->
     (1 <= k < depth dp)%nat -> sharedSuffix filePaths k i)
  /\ (forall i dp, displayPaths st !! i = Some dp -> i ∉ toProcess st ->
        ~ sharedSuffix filePaths (depth dp) i
        \/ depth dp = length (pathParts dp)).

End WithSeparator.

(** The value of [maxDepth] when a caller leaves it out. *)
Definition defaultMaxDepth : Z := 5.

(** The separator of paths that start with [/]. *)
Definition posixSeparatorFor (path : string) : ascii := "/"%char.

End DisplayPaths.

(** ** [ChangedFilesList] (ChangedFilesList.js) *)

Module ChangedFilesList.
Import Js DisplayPaths.

Definition FILE_CHANGES_INITIAL_PAGE_SIZE : nat := 100.

(** The state of the component. [visiblePagesCount] starts at 1 and is only
    ever incremented: a count. *)
Record State := mkState {
  isCollapsed : bool;
  visiblePagesCount : nat
}.

(** The state the constructor sets. *)
Definition initialState : State :=
  {| isCollapsed := false; visiblePagesCount := 1 |}.

(** The icon that shows more files: its tooltip, and what a click does to
    the state of the component. *)
Record ShowMoreFilesElement := mkShowMoreFilesElement {
  className : string;
  tooltipTitle : string;
  tooltipDelay : nat;
  tooltipPlacement : string;
  onClick : State -> State
}.

(** The line with the name of the root folder. *)
Record FolderNameElement := mkFolderNameElement {
  folderKey : string;
  folderDataPath : string;
  folderText : string;
  folderOnClick : State -> State
}.

Section Render.

(** The types of the values of the two maps, the functions of [nuclideUri],
    [repositoryForPath] (which gives the repository of a path, here by its
    type, if there is one), [String.prototype.localeCompare] and
    [Array.prototype.sort] are not among the sources. *)
Variable FileChangeStatusValue : Type.
Variable GeneratedFileType : Type.
Variable pathSeparatorFor : string -> ascii.
Variable basename : string -> string.
Variable repositoryForPath : string -> option string.
Variable localeCompare : string -> string -> Z.
Variable Array_sort : forall A : Type, (A -> A -> Z) -> list A -> list A.

Definition isHgPath (path : string) : bool :=
  match repositoryForPath path with
  | Some repoType => String.eqb repoType "hg"
  | None => false
  end.

(** The props that [render] reads; the handlers, which it hands on to each
    [ChangedFile] as they are, are left out. *)
Record Props := mkProps {
  checkedFiles : option (gset string);
  commandPrefix : string;
  enableFileExpansion : bool;
  enableInlineActions : bool;
  fileStatuses : list (string * FileChangeStatusValue);
  generatedTypes : option (list (string * GeneratedFileType));
  hideEmptyFolders : bool;
  openInDiffViewOption : bool;
  rootPath : string;
  selectedFile : option string;
  shouldShowFolderName : bool
}.

(** The elements of [sizeLimitedFileChanges]. *)
Record FileChange := mkFileChange {
  filePath : string;
  displayPath : option string;
  fileStatus : FileChangeStatusValue;
  generatedType : option GeneratedFileType
}.

(** The props of a [ChangedFile] element. *)
Record ChangedFileElement := mkChangedFileElement {
  cfCommandPrefix : string;
  cfDisplayPath : option string;
  cfEnableFileExpansion : bool;
  cfEnableInlineActions : bool;
  cfFilePath : string;
  cfFileStatus : FileChangeStatusValue;
  cfGeneratedType : option GeneratedFileType;
  cfIsChecked : option bool;
  cfIsHgPath : bool;
  cfIsSelected : bool;
  cfKey : string;
  cfOpenInDiffViewOption : bool;
  cfRootPath : string
}.

(** The list that [render] returns. *)
Record ListElement := mkListElement {
  rootClassName : string;
  folderName : option FolderNameElement;
  changedFiles : list ChangedFileElement;
  showMoreFilesElement : option ShowMoreFilesElement
}.

Definition render (props : Props) (state : State)
  : Outcome (option ListElement) :=
  if (Map_size (fileStatuses props) =? 0)%nat && hideEmptyFolders props
  then Returns None
  else
    let filesToShow :=
      (FILE_CHANGES_INITIAL_PAGE_SIZE * visiblePagesCount state)%nat in
    let filePaths := slice0 filesToShow (Map_keys (fileStatuses props)) in
    let displayPaths :=
      computeDisplayPaths pathSeparatorFor filePaths defaultMaxDepth in
    match
      mapWithIndex
        (fun filePath index =>
           let generatedType :=
             match generatedTypes props with
             | Some types => Map_get types filePath
             | None => None
             end in
           match nullthrows (Map_get (fileStatuses props) filePath) with
           | Throws e => Throws e
           | Returns fileStatus =>
               Returns {| filePath := filePath;
                          displayPath := displayPaths !! index;
                          fileStatus := fileStatus;
                          generatedType := generatedType |}
           end)
        0%nat filePaths
    with
    | Throws e => Throws e
    | Returns fileChanges =>
        let sizeLimitedFileChanges :=
          Array_sort FileChange
            (fun change1 change2 =>
               localeCompare (basename (filePath change1))
                             (basename (filePath change2)))
            fileChanges in
        let rootClassName :=
          if isCollapsed state then "list-nested-item collapsed"
          else "list-nested-item" in
        let showMoreFilesElement :=
          if (filesToShow <? Map_size (fileStatuses props))%nat
          then Some {| className := "icon icon-ellipsis";
                       tooltipTitle :=
                         "Show more files with uncommitted changes";
                       tooltipDelay := 300;
                       tooltipPlacement := "bottom";
                       onClick := fun current =>
                         {| isCollapsed := isCollapsed current;
                            visiblePagesCount :=
                              (visiblePagesCount current + 1)%nat |} |}
          else None in
        let isHgRoot := isHgPath (rootPath props) in
        Returns (Some
          {| rootClassName := rootClassName;
             folderName :=
               if shouldShowFolderName props
               then Some {| folderKey := rootPath props;
                            folderDataPath := rootPath props;
                            folderText := basename (rootPath props);
                            folderOnClick := fun current =>
                              {| isCollapsed := negb (isCollapsed current);
                                 visiblePagesCount :=
                                   visiblePagesCount current |} |}
               else None;
             changedFiles :=
               map (fun change =>
                      {| cfCommandPrefix := commandPrefix props;
                         cfDisplayPath := displayPath change;
                         cfEnableFileExpansion := enableFileExpansion props;
                         cfEnableInlineActions := enableInlineActions props;
                         cfFilePath := filePath change;
                         cfFileStatus := fileStatus change;
                         cfGeneratedType := generatedType change;
                         cfIsChecked :=
                           match checkedFiles props with
                           | None => None
                           | Some checked =>
                               Some (bool_decide (filePath change ∈ checked))
                           end;
                         cfIsHgPath := isHgRoot;
                         cfIsSelected :=
                           bool_decide
                             (selectedFile props = Some (filePath change));
                         cfKey := filePath change;
                         cfOpenInDiffViewOption := openInDiffViewOption props;
                         cfRootPath := rootPath props |})
                   sizeLimitedFileChanges;
             showMoreFilesElement := showMoreFilesElement |})
    end.

(** What is on the screen after [render]: the files, and the icon that
    shows more, if any. *)
Definition renderedFiles (node : option ListElement) : list ChangedFileElement :=
  match node with
  | Some element => changedFiles element
  | None => []
  end.

Definition renderedShowMore (node : option ListElement)
  : option ShowMoreFilesElement :=
  match node with
  | Some element => showMoreFilesElement element
  | None => None
  end.

End Render.

Arguments checkedFiles {_ _} _.
Arguments commandPrefix {_ _} _.
Arguments enableFileExpansion {_ _} _.
Arguments enableInlineActions {_ _} _.
Arguments fileStatuses {_ _} _.
Arguments generatedTypes {_ _} _.
Arguments hideEmptyFolders {_ _} _.
Arguments openInDiffViewOption {_ _} _.
Arguments rootPath {_ _} _.
Arguments selectedFile {_ _} _.
Arguments shouldShowFolderName {_ _} _.
Arguments filePath {_ _} _.
Arguments displayPath {_ _} _.
Arguments fileStatus {_ _} _.
Arguments generatedType {_ _} _.
Arguments cfFilePath {_ _} _.
Arguments cfDisplayPath {_ _} _.
Arguments cfFileStatus {_ _} _.
Arguments rootClassName {_ _} _.
Arguments folderName {_ _} _.
Arguments changedFiles {_ _} _.
Arguments showMoreFilesElement {_ _} _.
Arguments renderedFiles {_ _} _.
Arguments renderedShowMore {_ _} _.

End ChangedFilesList.

(** ** [RemoteProjectsService.createRemoteConnection] *)

Module RemoteProjectsService.
Import Js.

Section Service.

(** The connections, of the remote-connection package. *)
Variable RemoteConnection : Type.

(** [promptReconnectOnFailure] may be left out of a saved configuration. *)
Record SerializableRemoteConnectionConfiguration := mkConfiguration {
  host : string;
  path : string;
  displayTitle : string;
  promptReconnectOnFailure : option bool
}.

(** The two options that [createRemoteConnection] sets. *)
Record OpenConnectionDialogOptions := mkDialogOptions {
  initialServer : string;
  initialCwd : string
}.

(** The calls out of the service; both give a promise of a connection or
    [null]. *)
Inductive Call :=
| RemoteConnection_reconnect
    (host path displayTitle : string) (promptReconnectOnFailure : bool)
| openConnectionDialog (options : OpenConnectionDialogOptions).

(** An [async] function: it resolves, or awaits the promise of a call and
    goes on with what the promise resolves to. *)
Inductive Async (A : Type) :=
| Resolve (a : A)
| Await (call : Call) (next : option RemoteConnection -> Async A).
Arguments Resolve {A} a.
Arguments Await {A} call next.

Definition createRemoteConnection
    (remoteProjectConfig : SerializableRemoteConnectionConfiguration)
  : Async (option RemoteConnection) :=
  let host := host remoteProjectConfig in
  let path := path remoteProjectConfig in
  let displayTitle := displayTitle remoteProjectConfig in
  let promptReconnectOnFailure :=
    match promptReconnectOnFailure remoteProjectConfig with
    | Some prompt => prompt
    | None => true
    end in
  Await (RemoteConnection_reconnect host path displayTitle
           promptReconnectOnFailure)
    (fun connection =>
       match connection with
       | Some _ => Resolve connection
       | None =>
           if negb promptReconnectOnFailure then Resolve None
           else Await (openConnectionDialog
                         {| initialServer := host; initialCwd := path |})
                  (fun result => Resolve result)
       end).

(** Running an [async] function where [answer] tells how the promise of
    each call settles: the calls that were made, in order, and how the
    promise of the function settles. A promise that rejects makes [await]
    throw, which rejects the promise of the function. *)
Fixpoint run {A} (answer : Call -> Outcome (option RemoteConnection))
    (program : Async A) : list Call * Outcome A :=
  match program with
  | Resolve a => ([], Returns a)
  | Await call next =>
      match answer call with
      | Returns result =>
          let (calls, outcome) := run answer (next result) in
          (call :: calls, outcome)
      | Throws e => ([call], Throws e)
      end
  end.

End Service.

Arguments Resolve {_ _} a.
Arguments Await {_ _} call next.
Arguments createRemoteConnection {_} remoteProjectConfig.
Arguments run {_ _} answer program.

End RemoteProjectsService.

(** ** The Mercurial service *)

Module HgService.
Import Js.

(** One side of a conflict, as [hg resolve --tool=internal:dumpjson] prints
    it (the [mockOutput] of the test-suite). *)
Record ConflictSide := mkConflictSide {
  contents : string;
  sideExists : bool;
  isexec : bool;
  issymlink : bool
}.

Record Conflict := mkConflict {
  base : ConflictSide;
  local : ConflictSide;
  other : ConflictSide;
  output : ConflictSide;
  outputPath : string;
  conflictPath : string
}.

(** Modelled from the spec: [MergeConflictStatus] of hg-constants is not
    among the sources. The test names [BOTH_CHANGED] and [DELETED_IN_OURS];
    the spec has conflicts that are deleted on one side, which is ours or
    theirs. *)
Inductive MergeConflictStatus :=
| BOTH_CHANGED
| DELETED_IN_THEIRS
| DELETED_IN_OURS.

(** Modelled from the spec: [fetchMergeConflicts] of [HgService] is not
    among the sources, which hold its test only. The spec has it classify
    every parsed conflict record into a conflict status (both sides changed,
    deleted on one side) by comparing the existence flags: changed on both
    sides when our side ([local]) and their side ([other]) exist, deleted
    in theirs when only ours exists, deleted in ours when ours does not
    exist. *)
Definition conflictStatus (conflict : Conflict) : MergeConflictStatus :=
  if sideExists (local conflict) && sideExists (other conflict)
  then BOTH_CHANGED
  else if sideExists (local conflict) then DELETED_IN_THEIRS
  else DELETED_IN_OURS.

(** The parsed output, and the result with the statuses. *)
Record MergeConflictsOutput := mkMergeConflictsOutput {
  command : string;
  conflicts : list Conflict
}.

Record MergeConflictsEnriched := mkMergeConflictsEnriched {
  enrichedCommand : string;
  enrichedConflicts : list (Conflict * MergeConflictStatus)
}.

(** Modelled from the spec: [fetchMergeConflicts], on the parsed output of
    [hg]; every conflict record gets its status. *)
Definition fetchMergeConflicts (parsed : MergeConflictsOutput)
  : MergeConflictsEnriched :=
  {| enrichedCommand := command parsed;
     enrichedConflicts :=
       map (fun conflict => (conflict, conflictStatus conflict))
         (conflicts parsed) |}.

Definition newline : string := String "010"%char EmptyString.

Definition mockOutputContents : string :=
  "<<<<<<< dest:   aeef989d24c2 - asriram: t1" +:+ newline +:+ "t1"
  +:+ newline +:+ "=======" +:+ newline +:+ "t2" +:+ newline
  +:+ ">>>>>>> source: 64c253f3c1d7 - asriram: t2" +:+ newline.

(** The two conflicts of [mockOutput] of the test-suite, parsed. *)
Definition mockConflict1 : Conflict :=
  {| base := mkConflictSide "" true false false;
     local := mkConflictSide "t1" true false false;
     other := mkConflictSide "t2" true false false;
     output := mkConflictSide mockOutputContents true false false;
     outputPath := "temp1";
     conflictPath := "temp1" |}.

Definition mockConflict2 : Conflict :=
  {| base := mkConflictSide "" false false false;
     local := mkConflictSide "t1" false false false;
     other := mkConflictSide "t2" true false false;
     output := mkConflictSide mockOutputContents true false false;
     outputPath := "temp2";
     conflictPath := "temp2" |}.

Definition mockOutput : MergeConflictsOutput :=
  {| command := "rebase"; conflicts := [mockConflict1; mockConflict2] |}.

Section Config.

(** [hgAsyncExecute] of hg-utils: runs [hg] with arguments in a directory;
    it gives the output, or throws. *)
Variable hgAsyncExecute : list string -> string -> Outcome string.

(** What [getConfigValueAsync] makes of the output of [hg config]; the spec
    does not say. *)
Variable configValue : string -> string.

(** Modelled from the spec: [getConfigValueAsync] of [HgService] is not
    among the sources, which hold its tests only. It calls [hg config] with
    the key (the first test), and the spec has it return [null] where the
    configuration is missing, that is, where [hg] fails (the second test,
    returns null on errors). *)
Definition getConfigValueAsync (workingDirectory key : string)
  : Outcome (option string) :=
  match hgAsyncExecute ["config"; key] workingDirectory with
  | Returns stdout => Returns (Some (configValue stdout))
  | Throws _ => Returns None
  end.

End Config.

End HgService.

(** ** [serverStatusUpdatesToBusyMessages] (nuclide-flow/lib/main.js) *)

Module FlowBusyMessages.
Import Js.

Record ServerStatusUpdate := mkServerStatusUpdate {
  pathToRoot : string;
  status : string
}.

(** What the subscription does to the busy-signal service. *)
Inductive BusySignalCall :=
| reportBusy (message : string) (disposable : nat)
| dispose (disposable : nat).

(** The busy-signal service and the subscription. [reportBusy] shows a
    message and returns a disposable, here a number, that takes the message
    away again. [groupBy] makes one stream of updates per [pathToRoot], and
    [mergeMap] keeps all of them subscribed; [innerSubscription] holds, for
    each root, the disposable of the observable that [completingSwitchMap]
    is subscribed to for the last update of the root, if that observable is
    one that reports a message. *)
Record Subscription := mkSubscription {
  messages : gmap nat string;
  nextDisposable : nat;
  innerSubscription : gmap string nat;
  calls : list BusySignalCall
}.

Definition subscribed : Subscription :=
  {| messages := ∅; nextDisposable := 0; innerSubscription := ∅; calls := [] |}.

(** The last update of a root in a sequence of updates. *)
Definition lastUpdate (root : string)
    (statusUpdates : list ServerStatusUpdate) : option ServerStatusUpdate :=
  last (filter (fun update => pathToRoot update = root) statusUpdates).

(** The message that is shown for a root. *)
Definition activeMessage (s : Subscription) (root : string) : option string :=
  match innerSubscription s !! root with
  | Some disposable => messages s !! disposable
  | None => None
  end.

(** The subscriptions that can arise: the disposables held for the roots
    are distinct, are those of the messages shown, and are older than the
    next one. *)
Record consistent (s : Subscription) : Prop := {
  held_fresh : forall root d,
    innerSubscription s !! root = Some d -> (d < nextDisposable s)%nat;
  held_shown : forall root d,
    innerSubscription s !! root = Some d -> is_Some (messages s !! d);
  shown_held : forall d text,
    messages s !! d = Some text ->
    exists root, innerSubscription s !! root = Some d;
  held_distinct : forall root1 root2 d,
    innerSubscription s !! root1 = Some d ->
    innerSubscription s !! root2 = Some d -> root1 = root2
}.

Section Messages.

(** [nuclideUri.nuclideUriToDisplayString] is not among the sources. *)
Variable nuclideUriToDisplayString : string -> string.

(** The function that [completingSwitchMap] is given: the message to
    report while the observable it returns is subscribed to, or none for
    [Observable.empty()]. *)
Definition busyMessage (nextStatus : ServerStatusUpdate) : option string :=
  if String.eqb (status nextStatus) "init"
     || String.eqb (status nextStatus) "busy"
  then
    let readablePath := nuclideUriToDisplayString (pathToRoot nextStatus) in
    let readableStatus :=
      if String.eqb (status nextStatus) "init" then "initializing"
      else "busy" in
    Some ("Flow server is " +:+ readableStatus +:+ " (" +:+ readablePath
          +:+ ")")
  else None.

(** Unsubscribing from the observable of the last update of a root: its
    teardown disposes of the message, if it reported one. *)
Definition unsubscribeInner (root : string) (s : Subscription) : Subscription :=
  match innerSubscription s !! root with
  | Some disposable =>
      {| messages := delete disposable (messages s);
         nextDisposable := nextDisposable s;
         innerSubscription := delete root (innerSubscription s);
         calls := calls s ++ [dispose disposable] |}
  | None => s
  end.

(** Subscribing to the observable made for an update. *)
Definition subscribeInner (root : string) (message : option string)
    (s : Subscription) : Subscription :=
  match message with
  | Some text =>
      let disposable := nextDisposable s in
      {| messages := <[disposable := text]> (messages s);
         nextDisposable := S disposable;
         innerSubscription := <[root := disposable]> (innerSubscription s);
         calls := calls s ++ [reportBusy text disposable] |}
  | None => s
  end.

(** Modelled from the spec: [completingSwitchMap] of nuclide-commons is not
    among the sources. The spec has the status stream drive transient
    notifications, and the source says of it that the switchMap ensures
    that messages get cleared: on an update of a root it unsubscribes from
    the observable of the previous update of that root, and subscribes to
    the one of the new update. *)
Definition next (update : ServerStatusUpdate) (s : Subscription)
  : Subscription :=
  subscribeInner (pathToRoot update) (busyMessage update)
    (unsubscribeInner (pathToRoot update) s).

(** The subscription after a sequence of updates. *)
Definition serverStatusUpdatesToBusyMessages
    (statusUpdates : list ServerStatusUpdate) : Subscription :=
  foldl (fun s update => next update s) subscribed statusUpdates.

End Messages.

End FlowBusyMessages.

(** ** The activation of the Flow package (nuclide-flow/lib/main.js) *)

Module FlowActivation.

(** The promise of [activateLsp()] or of [activateLegacy()]. *)
Inductive Activated := ActivatedLsp | ActivatedLegacy.

(** The fields of [Activation]. [_disposed] is not set by the constructor,
    which reads as [false]. *)
Record Activation := mkActivation {
  _disposed : bool;
  _activationPromise : option Activated
}.

Definition constructed : Activation :=
  {| _disposed := false; _activationPromise := None |}.

(** What the methods do besides setting fields: start an activation, or
    dispose of an activation once its promise resolves. *)
Inductive Effect :=
| activateLsp
| activateLegacy
| disposeActivation (activation : Activated).

(** [_onGKInitialized], where [lspEnabled] is what
    [isGkEnabled('nuclide_flow_lsp')] gives. *)
Definition _onGKInitialized (lspEnabled : bool) (this : Activation)
  : Activation * list Effect :=
  if _disposed this then (this, [])
  else if lspEnabled
  then ({| _disposed := _disposed this;
           _activationPromise := Some ActivatedLsp |}, [activateLsp])
  else ({| _disposed := _disposed this;
           _activationPromise := Some ActivatedLegacy |}, [activateLegacy]).

Definition dispose (this : Activation) : Activation * list Effect :=
  ({| _disposed := true; _activationPromise := None |},
   match _activationPromise this with
   | Some activation => [disposeActivation activation]
   | None => []
   end).

(** What happens to an [Activation]: the gatekeeper calls back, or the
    package is disposed. *)
Inductive Event :=
| GKInitialized (lspEnabled : bool)
| Disposed.

Definition isGKInitialized (event : Event) : bool :=
  match event with
  | GKInitialized _ => true
  | Disposed => false
  end.

Definition handle (event : Event) (this : Activation)
  : Activation * list Effect :=
  match event with
  | GKInitialized lspEnabled => _onGKInitialized lspEnabled this
  | Disposed => dispose this
  end.

(** The fields and the effects after a sequence of events. *)
Definition runFrom (this : Activation) (events : list Event)
  : Activation * list Effect :=
  foldl (fun state event =>
           let (next, effects) := handle event (fst state) in
           (next, snd state ++ effects))
        (this, []) events.

Definition isActivate (effect : Effect) : bool :=
  match effect with
  | disposeActivation _ => false
  | _ => true
  end.

Definition activationOf (effect : Effect) : option Activated :=
  match effect with
  | activateLsp => Some ActivatedLsp
  | activateLegacy => Some ActivatedLegacy
  | disposeActivation _ => None
  end.

End FlowActivation.

(** ** The command [nuclide-flow:find-indirect-references]
       (nuclide-flow/lib/main.js) *)

Module FindIndirectReferences.
Import Js.

Section Command.

(** The types of the editor and of the Flow service. *)
Variables TextEditor Cursor MouseEvent Point FileVersion : Type.
Variables FlowLanguageService References : Type.

(** What [customFindReferences] gives: a result of type [data], or one with
    a message. *)
Inductive FindReferencesReturn :=
| data (references : References)
| error (message : string).

(** What the command reads: the workspace, the editor, and the services.
    [connectionCache], when there is one, is read by its [getForUri];
    [customFindReferences] stands for the promise of the references that
    the service gives, [null] if it gives none. The promises that the
    command awaits are taken to resolve. *)
Record Workspace := mkWorkspace {
  getActiveTextEditor : option TextEditor;
  getPath : TextEditor -> option string;
  getCursors : TextEditor -> list Cursor;
  getBufferPosition : Cursor -> Point;
  bufferPositionForMouseEvent : MouseEvent -> TextEditor -> Point;
  getFileVersionOfEditor : TextEditor -> option FileVersion;
  connectionCache : option (string -> option FlowLanguageService);
  customFindReferences :
    FlowLanguageService -> FileVersion -> Point -> bool -> bool ->
    option FindReferencesReturn
}.

(** What the command does that the user sees. [reportBusyWhile] runs the
    function it is given and gives its result. *)
Inductive Action :=
| reportBusyWhile (title : string) (revealTooltip : bool) (waitingFor : string)
| addInfo (message : string)
| addWarning (message : string)
| viewResults (references : References).

Definition quote : string := String "034"%char EmptyString.

(** The command: from the workspace, [lastMouseEvent] and whether there is a
    [busySignalService], to the new [lastMouseEvent], what the user sees,
    and how the promise of the command settles. [getConnectionCache] throws
    when there is no [connectionCache]. *)
Definition findIndirectReferences (workspace : Workspace)
    (lastMouseEvent : option MouseEvent) (busySignalService : bool)
  : option MouseEvent * list Action * Outcome unit :=
  match getActiveTextEditor workspace with
  | None => (lastMouseEvent, [], Returns tt)
  | Some editor =>
  match getPath workspace editor with
  | None => (lastMouseEvent, [], Returns tt)
  | Some path =>
  match getCursors workspace editor with
  | [cursor] =>
      let position :=
        match lastMouseEvent with
        | Some event => bufferPositionForMouseEvent workspace event editor
        | None => getBufferPosition workspace cursor
        end in
      let fileVersion := getFileVersionOfEditor workspace editor in
      match connectionCache workspace with
      | None => (None, [], Throws "AssertionError")
      | Some getForUri =>
      match getForUri path with
      | None => (None, [], Returns tt)
      | Some flowLS =>
      match fileVersion with
      | None => (None, [], Returns tt)
      | Some fileVersion =>
          let result :=
            customFindReferences workspace flowLS fileVersion position
              true true in
          let busy :=
            if busySignalService
            then [reportBusyWhile
                    "Running Flow find-indirect-references (this may take a while)"
                    true "computer"]
            else [] in
          let shown :=
            match result with
            | None => addInfo "No find references results available"
            | Some (data references) => viewResults references
            | Some (error message) =>
                addWarning
                  ("Flow find-indirect-references issued an error: "
                   +:+ quote +:+ message +:+ quote)
            end in
          (None, busy ++ [shown], Returns tt)
      end
      end
      end
  | _ => (lastMouseEvent, [], Returns tt)
  end
  end
  end.

(** Whether an action tells the user of an outcome. *)
Definition isOutcome (action : Action) : bool :=
  match action with
  | reportBusyWhile _ _ _ => false
  | _ => true
  end.

End Command.

Arguments data {_} references.
Arguments error {_} message.
Arguments getActiveTextEditor {_ _ _ _ _ _ _} _.
Arguments getPath {_ _ _ _ _ _ _} _ _.
Arguments getCursors {_ _ _ _ _ _ _} _ _.
Arguments getBufferPosition {_ _ _ _ _ _ _} _ _.
Arguments bufferPositionForMouseEvent {_ _ _ _ _ _ _} _ _ _.
Arguments getFileVersionOfEditor {_ _ _ _ _ _ _} _ _.
Arguments connectionCache {_ _ _ _ _ _ _} _.
Arguments customFindReferences {_ _ _ _ _ _ _} _ _ _ _ _ _.
Arguments reportBusyWhile {_} title revealTooltip waitingFor.
Arguments addInfo {_} message.
Arguments addWarning {_} message.
Arguments viewResults {_} references.
Arguments findIndirectReferences {_ _ _ _ _ _ _} workspace lastMouseEvent
  busySignalService.
Arguments isOutcome {_} action.

End FindIndirectReferences.

(** ** The calls of the busy-signal service, as a log *)

Module FlowBusyLog.
Import Js FlowBusyMessages.

(** The disposables that messages were reported under, and those that were
    disposed of, in the order of the calls. *)
Definition reported (log : list BusySignalCall) : list nat :=
  omap (fun call => match call with
                    | reportBusy _ disposable => Some disposable
                    | dispose _ => None
                    end) log.

Definition disposed (log : list BusySignalCall) : list nat :=
  omap (fun call => match call with
                    | reportBusy _ _ => None
                    | dispose disposable => Some disposable
                    end) log.

(** Reading a log of calls: a message is only ever reported under a new
    disposable, and only a disposable whose message is shown is disposed
    of. The result is the set of the disposables whose messages are shown,
    and the set of all that were used; none if the log breaks the rule. *)
Definition readCall (state : option (gset nat * gset nat))
    (call : BusySignalCall) : option (gset nat * gset nat) :=
  match state with
  | None => None
  | Some (live, used) =>
      match call with
      | reportBusy _ disposable =>
          if decide (disposable ∈ used) then None
          else Some ({[disposable]} ∪ live, {[disposable]} ∪ used)
      | dispose disposable =>
          if decide (disposable ∈ live)
          then Some (live ∖ {[disposable]}, used)
          else None
      end
  end.

Definition readLog (log : list BusySignalCall)
  : option (gset nat * gset nat) :=
  foldl readCall (Some (∅, ∅)) log.

(** Whether an update has a message. *)
Definition isBusy (update : ServerStatusUpdate) : bool :=
  String.eqb (status update) "init" || String.eqb (status update) "busy".

(** The calls so far keep the rule of [readLog]; the messages shown are
    those of the disposables held, and every disposable used is older than
    the next one. *)
Definition disciplined (s : Subscription) : Prop :=
  exists live used,
    readLog (calls s) = Some (live, used)
    /\ (forall d, d ∈ live <-> exists root, innerSubscription s !! root = Some d)
    /\ (forall d, d ∈ used -> (d < nextDisposable s)%nat).

End FlowBusyLog.

(** ** Inputs to run the models on *)

Module Samples.
Import Js DisplayPaths ChangedFilesList FlowBusyMessages.

(** A sort to run [render] with: insertion, in the order of the
    comparison. *)
Fixpoint insertSorted {A} (compare : A -> A -> Z) (x : A) (l : list A)
  : list A :=
  match l with
  | [] => [x]
  | y :: rest =>
      if (compare x y <? 0)%Z then x :: l
      else y :: insertSorted compare x rest
  end.

Definition insertionSort (A : Type) (compare : A -> A -> Z) (l : list A)
  : list A :=
  foldl (fun sorted x => insertSorted compare x sorted) [] l.

(** The order of two strings, as a number. *)
Definition compareStrings (a b : string) : Z :=
  match String.compare a b with
  | Lt => -1
  | Eq => 0
  | Gt => 1
  end.

(** The last segment of a path. *)
Definition lastSegment (path : string) : string :=
  default "" (last (split "/" path)).

(** Three changed files of a Mercurial repository. *)
Definition threeFiles : Props nat string :=
  {| checkedFiles := None;
     commandPrefix := "changed-files";
     enableFileExpansion := false;
     enableInlineActions := false;
     fileStatuses := [("/repo/b/c.js", 1%nat); ("/repo/d/c.js", 2%nat);
                      ("/repo/a.js", 1%nat)];
     generatedTypes := None;
     hideEmptyFolders := true;
     openInDiffViewOption := false;
     rootPath := "/repo";
     selectedFile := None;
     shouldShowFolderName := true |}.

Definition renderExample (props : Props nat string) (state : State)
  : Outcome (option (ListElement nat string)) :=
  render nat string posixSeparatorFor lastSegment (fun _ => Some "hg")
    compareStrings insertionSort props state.

(** A root that is initializing and then ready, and one that is busy. *)
Definition someUpdates : list ServerStatusUpdate :=
  [ {| pathToRoot := "/proj"; status := "init" |};
    {| pathToRoot := "/other"; status := "busy" |};
    {| pathToRoot := "/proj"; status := "ready" |} ].

(** A name of [n] letters. *)
Fixpoint nameOf (n : nat) : string :=
  match n with
  | O => ""
  | S n => String "x" (nameOf n)
  end.

(** 101 changed files: one more than a page of 100. *)
Definition manyFiles : Props nat string :=
  {| checkedFiles := None;
     commandPrefix := "changed-files";
     enableFileExpansion := false;
     enableInlineActions := false;
     fileStatuses :=
       map (fun n => ("/repo/" +:+ nameOf n +:+ ".js", 1%nat)) (seq 0 101);
     generatedTypes := None;
     hideEmptyFolders := true;
     openInDiffViewOption := false;
     rootPath := "/repo";
     selectedFile := None;
     shouldShowFolderName := true |}.

(** A workspace with one editor of the file [/repo/a.js], one cursor at
    position 7, and a Flow service that finds the references 1 and 2 from
    position 3. Positions and versions are numbers here. *)
Definition oneEditor
  : FindIndirectReferences.Workspace unit unit nat nat nat unit (list nat) :=
  {| FindIndirectReferences.getActiveTextEditor := Some tt;
     FindIndirectReferences.getPath := fun _ => Some "/repo/a.js";
     FindIndirectReferences.getCursors := fun _ => [tt];
     FindIndirectReferences.getBufferPosition := fun _ => 7%nat;
     FindIndirectReferences.bufferPositionForMouseEvent :=
       fun event _ => event;
     FindIndirectReferences.getFileVersionOfEditor := fun _ => Some 1%nat;
     FindIndirectReferences.connectionCache := Some (fun _ => Some tt);
     FindIndirectReferences.customFindReferences :=
       fun _ _ position _ _ =>
         if (position =? 3)%nat
         then Some (FindIndirectReferences.data [1%nat; 2%nat])
         else None |}.

End Samples.

(** * Properties *)

(** ** Strings *)

Section StringFacts.
Import Js.

Lemma split_nonempty sep s : split sep s <> [].
Proof.
  destruct s as [|c s]; simpl; [discriminate|].
  destruct (Ascii.eqb c sep); [discriminate|].
  destruct (split sep s); discriminate.
Qed.

Lemma split_length_pos sep s : (0 < length (split sep s))%nat.
Proof.
  pose proof (split_nonempty sep s) as H.
  destruct (split sep s); [congruence | simpl; lia].
Qed.

Lemma join_cons_char sep c x l :
  join sep (String c x :: l) = String c (join sep (x :: l)).
Proof. destruct l; reflexivity. Qed.

Lemma join_cons_cons sep x y l :
  join (String sep EmptyString) (x :: y :: l)
  = x +:+ String sep (join (String sep EmptyString) (y :: l)).
Proof. reflexivity. Qed.

(** Joining the pieces of a split with the separator gives the string back. *)
Lemma join_split sep s : join (String sep EmptyString) (split sep s) = s.
Proof.
  induction s as [|c s IH]; [reflexivity|].
  simpl. destruct (Ascii.eqb_spec c sep) as [->|Hne].
  - pose proof (split_nonempty sep s) as Hs.
    destruct (split sep s) as [|seg segs]; [congruence|].
    rewrite join_cons_cons, IH. reflexivity.
  - pose proof (split_nonempty sep s) as Hs.
    destruct (split sep s) as [|seg segs]; [congruence|].
    rewrite join_cons_char, IH. reflexivity.
Qed.

Lemma split_free sep x : contains sep x = false -> split sep x = [x].
Proof.
  induction x as [|c x IH]; [reflexivity|].
  simpl. intros [Hc Hx]%orb_false_iff. rewrite Hc, (IH Hx). reflexivity.
Qed.

Lemma split_app_sep sep x rest :
  contains sep x = false ->
  split sep (x +:+ String sep rest) = x :: split sep rest.
Proof.
  induction x as [|c x IH]; simpl.
  - intros _. rewrite Ascii.eqb_refl. reflexivity.
  - intros [Hc Hx]%orb_false_iff. rewrite Hc, (IH Hx). reflexivity.
Qed.

(** Splitting a join of separator-free pieces gives the pieces back. *)
Lemma split_join sep l :
  l <> [] -> Forall (fun x => contains sep x = false) l ->
  split sep (join (String sep EmptyString) l) = l.
Proof.
  induction l as [|x l IH]; [congruence|].
  intros _ Hall. inversion Hall as [|? ? Hx Hl]; subst.
  destruct l as [|y l]; [simpl; by apply split_free|].
  rewrite join_cons_cons, split_app_sep by done. f_equal. by apply IH.
Qed.

Lemma join_inj sep l1 l2 :
  l1 <> [] -> l2 <> [] ->
  Forall (fun x => contains sep x = false) l1 ->
  Forall (fun x => contains sep x = false) l2 ->
  join (String sep EmptyString) l1 = join (String sep EmptyString) l2 ->
  l1 = l2.
Proof.
  intros N1 N2 F1 F2 E.
  rewrite <- (split_join sep l1), <- (split_join sep l2) by done.
  by rewrite E.
Qed.

Lemma contains_app c x y :
  contains c (x +:+ y) = contains c x || contains c y.
Proof.
  induction x as [|d x IH]; simpl; [reflexivity|].
  rewrite IH. by rewrite orb_assoc.
Qed.

Lemma contains_join_cons_cons c x y l :
  contains c (join (String c EmptyString) (x :: y :: l)) = true.
Proof.
  rewrite join_cons_cons, !contains_app. simpl.
  rewrite Ascii.eqb_refl. by rewrite orb_true_r.
Qed.

(** No property name of [Object.prototype] has a slash in it. *)
Lemma inherited_no_slash k : inherited k = true -> contains "/" k = false.
Proof.
  unfold inherited. intros H%bool_decide_eq_true.
  unfold Object_prototype_keys in H.
  repeat (apply elem_of_cons in H as [->|H]; [reflexivity|]).
  by apply elem_of_nil in H.
Qed.

(** The pieces of a split have no separator in them. *)
Lemma split_pieces_free sep s :
  Forall (fun x => contains sep x = false) (split sep s).
Proof.
  induction s as [|c s IH]; simpl; [by repeat constructor|].
  destruct (Ascii.eqb c sep) eqn:Ec; [by constructor|].
  pose proof (split_nonempty sep s) as Hs.
  destruct (split sep s) as [|seg segs]; [congruence|].
  inversion IH as [|? ? Hseg Hsegs]; subst.
  constructor; [|done]. simpl. by rewrite Ec.
Qed.

End StringFacts.

(** ** Counting and marking in one round *)

Section RoundFacts.
Import Js DisplayPaths.

Lemma occurrences_app k l1 l2 :
  occurrences k (l1 ++ l2) = (occurrences k l1 + occurrences k l2)%nat.
Proof. unfold occurrences. by rewrite filter_app, length_app. Qed.

Lemma occurrences_singleton_eq k : occurrences k [k] = 1%nat.
Proof. unfold occurrences. by rewrite filter_cons_True. Qed.

Lemma occurrences_singleton_ne k x : x <> k -> occurrences k [x] = 0%nat.
Proof. intros. unfold occurrences. by rewrite filter_cons_False. Qed.

Lemma occurrences_pos k keys : k ∈ keys <-> (0 < occurrences k keys)%nat.
Proof.
  unfold occurrences. split.
  - intros Hin. assert (Hk : k ∈ filter (fun x => x = k) keys)
      by (apply list_elem_of_filter; done).
    destruct (filter _ keys); [by apply elem_of_nil in Hk | simpl; lia].
  - intros Hpos. destruct (filter (fun x => x = k) keys) as [|y l] eqn:E;
      [simpl in Hpos; lia|].
    assert (Hy : y ∈ filter (fun x => x = k) keys) by (rewrite E; left).
    apply list_elem_of_filter in Hy as [-> ?]. done.
Qed.

Lemma counted_nil : counted [] ∅.
Proof. intros k. by rewrite lookup_empty. Qed.

Lemma counted_snoc keys sc x :
  counted keys sc -> counted (keys ++ [x]) (countSeen sc x).
Proof.
  intros Hc k. rewrite occurrences_app.
  unfold countSeen, getProp. pose proof (Hc x) as Hx.
  destruct (decide (x = k)) as [->|Hne].
  - rewrite occurrences_singleton_eq, Hx, Nat.add_1_r.
    destruct (occurrences k keys) as [|n]; destruct (inherited k) eqn:Ei;
      simpl; rewrite ?Ei; by rewrite lookup_insert_eq.
  - rewrite occurrences_singleton_ne, Nat.add_0_r by done.
    rewrite <- (Hc k).
    destruct (sc !! x) as [v|]; [|destruct (inherited x)];
      by rewrite lookup_insert_ne.
Qed.

Lemma counted_foldl keys0 sc keys :
  counted keys0 sc -> counted (keys0 ++ keys) (foldl countSeen sc keys).
Proof.
  revert keys0 sc. induction keys as [|x keys IH]; intros keys0 sc Hc; simpl.
  - by rewrite app_nil_r.
  - replace (keys0 ++ x :: keys) with ((keys0 ++ [x]) ++ keys)
      by (by rewrite <- app_assoc).
    apply IH. by apply counted_snoc.
Qed.

(** [seenCount[path] === 1] holds for the keys counted once, unless the key
    is a property name of [Object.prototype]. *)
Lemma isOne_counted keys sc k :
  counted keys sc ->
  isOne (getProp sc k) = true
  <-> occurrences k keys = 1%nat /\ inherited k = false.
Proof.
  intros Hc. unfold getProp. rewrite (Hc k).
  destruct (occurrences k keys) as [|[|n]]; destruct (inherited k); simpl;
    split; (intros [? ?] || intros ?); try done; try lia.
Qed.

Lemma countPass_keys objs refs sc :
  countPass objs refs sc = foldl countSeen sc (keysOf objs refs).
Proof.
  unfold countPass, keysOf. revert sc.
  induction refs as [|i refs IH]; intros sc; simpl; [done|].
  destruct (objs !! i) as [dp|]; simpl; by rewrite IH.
Qed.

Lemma countPass_counted objs refs :
  counted (keysOf objs refs) (countPass objs refs ∅).
Proof.
  rewrite countPass_keys.
  apply (counted_foldl [] ∅ (keysOf objs refs)), counted_nil.
Qed.

(** The second [forEach] changes the objects [toProcess] refers to, each
    once, and no other. *)
Lemma markPass_lookup sc refs objs i :
  NoDup refs ->
  markPass sc refs objs !! i
  = if decide (i ∈ refs) then markOrExtend sc <$> objs !! i else objs !! i.
Proof.
  unfold markPass. revert objs.
  induction refs as [|r refs IH]; intros objs Hnd.
  - by simpl.
  - apply NoDup_cons in Hnd as [Hr Hnd]. cbn [foldl]. rewrite (IH _ Hnd).
    destruct (decide (i = r)) as [->|Hne].
    + rewrite list_lookup_alter_eq, (decide_False (P := r ∈ refs)) by done.
      by rewrite decide_True by left.
    + rewrite list_lookup_alter_ne by done.
      destruct (decide (i ∈ refs)) as [Hin|Hin].
      * by rewrite decide_True by (by right).
      * by rewrite decide_False by (by intros [?|?]%elem_of_cons).
Qed.

Lemma markPass_length sc refs objs :
  length (markPass sc refs objs) = length objs.
Proof.
  unfold markPass. revert objs.
  induction refs as [|r refs IH]; intros objs; simpl; [done|].
  by rewrite IH, length_alter.
Qed.

Lemma keysOf_app objs l1 l2 :
  keysOf objs (l1 ++ l2) = keysOf objs l1 ++ keysOf objs l2.
Proof. apply omap_app. Qed.

Lemma keysOf_cons objs i l dp :
  objs !! i = Some dp -> keysOf objs (i :: l) = suffixKey dp :: keysOf objs l.
Proof. intros H. unfold keysOf. simpl. by rewrite H. Qed.

Lemma occurrences_cons_eq k l : occurrences k (k :: l) = S (occurrences k l).
Proof. unfold occurrences. by rewrite filter_cons_True. Qed.

Lemma occurrences_keysOf_in objs refs i dp :
  i ∈ refs -> objs !! i = Some dp ->
  (1 <= occurrences (suffixKey dp) (keysOf objs refs))%nat.
Proof.
  intros (l1 & l2 & ->)%list_elem_of_split Hdp.
  rewrite keysOf_app, (keysOf_cons _ _ _ _ Hdp), occurrences_app,
    occurrences_cons_eq. lia.
Qed.

(** Two objects of [toProcess] with one key: the key is counted twice. *)
Lemma occurrences_keysOf_two objs refs i j dpi dpj :
  i <> j -> i ∈ refs -> j ∈ refs ->
  objs !! i = Some dpi -> objs !! j = Some dpj ->
  suffixKey dpj = suffixKey dpi ->
  (2 <= occurrences (suffixKey dpi) (keysOf objs refs))%nat.
Proof.
  intros Hne (l1 & l2 & ->)%list_elem_of_split Hj Hdpi Hdpj Hkey.
  rewrite keysOf_app, (keysOf_cons _ _ _ _ Hdpi), occurrences_app,
    occurrences_cons_eq.
  apply elem_of_app in Hj as [Hj|Hj].
  - pose proof (occurrences_keysOf_in objs l1 j dpj Hj Hdpj) as H.
    rewrite Hkey in H. lia.
  - apply elem_of_cons in Hj as [->|Hj]; [done|].
    pose proof (occurrences_keysOf_in objs l2 j dpj Hj Hdpj) as H.
    rewrite Hkey in H. lia.
Qed.

Lemma occurrences_keysOf_none objs refs k :
  (forall j dp, j ∈ refs -> objs !! j = Some dp -> suffixKey dp <> k) ->
  occurrences k (keysOf objs refs) = 0%nat.
Proof.
  induction refs as [|r refs IH]; intros Hno; [done|].
  destruct (objs !! r) as [dp|] eqn:Hr.
  - rewrite (keysOf_cons _ _ _ _ Hr).
    change (suffixKey dp :: keysOf objs refs)
      with ([suffixKey dp] ++ keysOf objs refs).
    rewrite occurrences_app, occurrences_singleton_ne, IH; [done| |].
    + intros j dp' Hj. apply Hno. by right.
    + apply (Hno r); [left|done].
  - unfold keysOf. simpl. rewrite Hr. simpl. apply IH.
    intros j dp' Hj. apply Hno. by right.
Qed.

(** A key that only one object of [toProcess] has is counted once. *)
Lemma occurrences_keysOf_one objs refs i dp :
  NoDup refs -> i ∈ refs -> objs !! i = Some dp ->
  (forall j dpj, j ∈ refs -> objs !! j = Some dpj ->
     suffixKey dpj = suffixKey dp -> j = i) ->
  occurrences (suffixKey dp) (keysOf objs refs) = 1%nat.
Proof.
  intros Hnd (l1 & l2 & ->)%list_elem_of_split Hdp Honly.
  apply NoDup_app in Hnd as (_ & Hl1 & [Hl2 _]%NoDup_cons).
  rewrite keysOf_app, (keysOf_cons _ _ _ _ Hdp), occurrences_app,
    occurrences_cons_eq.
  rewrite !occurrences_keysOf_none; [done| |].
  - intros j dpj Hj Hdpj Hkey. apply Hl2.
    rewrite <- (Honly j dpj); [done| |done|done]. set_solver.
  - intros j dpj Hj Hdpj Hkey. apply (Hl1 j Hj).
    rewrite (Honly j dpj); [left| |done|done]. set_solver.
Qed.

(** An object besides [i] with the key of [i], when the key is not counted
    once. *)
Lemma occurrences_keysOf_other objs refs i dp :
  NoDup refs -> i ∈ refs -> objs !! i = Some dp ->
  occurrences (suffixKey dp) (keysOf objs refs) <> 1%nat ->
  exists j dpj, j <> i /\ j ∈ refs /\ objs !! j = Some dpj
    /\ suffixKey dpj = suffixKey dp.
Proof.
  intros Hnd (l1 & l2 & ->)%list_elem_of_split Hdp Hocc.
  apply NoDup_app in Hnd as (_ & Hl1 & [Hl2 _]%NoDup_cons).
  rewrite keysOf_app, (keysOf_cons _ _ _ _ Hdp), occurrences_app,
    occurrences_cons_eq in Hocc.
  assert (Hfind : forall l, (0 < occurrences (suffixKey dp) (keysOf objs l))%nat ->
    exists j dpj, j ∈ l /\ objs !! j = Some dpj
      /\ suffixKey dpj = suffixKey dp).
  { intros l Hpos%occurrences_pos. unfold keysOf in Hpos.
    apply list_elem_of_omap in Hpos as (j & Hj & Hkey).
    destruct (objs !! j) as [dpj|] eqn:E; [|done].
    injection Hkey as Hkey. by exists j, dpj. }
  destruct (occurrences (suffixKey dp) (keysOf objs l1)) as [|c1] eqn:E1.
  - destruct (Hfind l2) as (j & dpj & Hj & Hdpj & Hkey); [lia|].
    exists j, dpj. split; [intros ->; contradiction|].
    split; [set_solver|done].
  - destruct (Hfind l1) as (j & dpj & Hj & Hdpj & Hkey); [lia|].
    exists j, dpj. split; [intros ->; apply (Hl1 i Hj); left|].
    split; [set_solver|done].
Qed.

End RoundFacts.

(** ** The loop *)

Section LoopFacts.
Import Js DisplayPaths.

Lemma whileLoop_unfold maxDepth st :
  whileLoop maxDepth st
  = if decide (continues maxDepth st) then whileLoop maxDepth (round st)
    else st.
Proof.
  rewrite whileLoop_equation_1.
  destruct (decide (continues maxDepth st)); reflexivity.
Qed.

Lemma currentDepth_round st : currentDepth (round st) = currentDepth st + 1.
Proof. reflexivity. Qed.

Lemma currentDepth_rounds n st :
  currentDepth (Nat.iter n round st) = currentDepth st + Z.of_nat n.
Proof.
  induction n as [|n IH]; [simpl; lia|].
  rewrite Nat.iter_succ, currentDepth_round, IH. lia.
Qed.

(** The loop ends, after a number of rounds that the distance of
    [currentDepth] to [maxDepth] bounds; the guard holds before every round
    and fails after the last. *)
Lemma whileLoop_rounds maxDepth st :
  exists n : nat,
    whileLoop maxDepth st = Nat.iter n round st
    /\ Z.of_nat n <= Z.max 0 (maxDepth - currentDepth st)
    /\ (forall k, (k < n)%nat -> continues maxDepth (Nat.iter k round st))
    /\ ~ continues maxDepth (Nat.iter n round st).
Proof.
  remember (Z.to_nat (maxDepth - currentDepth st)) as m eqn:Hm.
  revert st Hm. induction m as [m IH] using lt_wf_ind. intros st Hm.
  rewrite whileLoop_unfold.
  destruct (decide (continues maxDepth st)) as [Hc|Hc].
  - destruct (IH (Z.to_nat (maxDepth - currentDepth (round st)))
                (ltac:(rewrite currentDepth_round; destruct Hc; lia))
                (round st) eq_refl) as (n & Heq & Hle & Hbefore & Hafter).
    exists (S n). rewrite Nat.iter_succ_r. split; [|split; [|split]].
    + exact Heq.
    + rewrite currentDepth_round in Hle. destruct Hc. lia.
    + intros [|j] Hj; [exact Hc|].
      rewrite Nat.iter_succ_r. apply Hbefore. lia.
    + exact Hafter.
  - exists 0%nat. split; [|split; [|split]]; simpl; [done | lia | intros; lia | exact Hc].
Qed.

(** What holds at the start and is kept by every round holds at the end. *)
Lemma whileLoop_invariant (P : LoopState -> Prop) maxDepth st :
  P st -> (forall s, P s -> continues maxDepth s -> P (round s)) ->
  P (whileLoop maxDepth st).
Proof.
  intros H0 Hstep.
  destruct (whileLoop_rounds maxDepth st) as (n & -> & _ & Hbefore & _).
  induction n as [|n IH]; [exact H0|].
  rewrite Nat.iter_succ.
  apply Hstep; [apply IH; intros; apply Hbefore; lia|].
  apply Hbefore. lia.
Qed.

Lemma markOrExtend_counted keys sc dp :
  counted keys sc ->
  markOrExtend sc dp = if isFinal keys dp then markDone dp else extend dp.
Proof.
  intros Hc. unfold markOrExtend, isFinal.
  pose proof (isOne_counted keys sc (suffixKey dp) Hc) as Hone.
  destruct (isOne (getProp sc (suffixKey dp))).
  - destruct Hone as [[-> ->] _]; [done|].
    by rewrite bool_decide_eq_true_2.
  - assert (bool_decide (occurrences (suffixKey dp) keys = 1%nat)
            && negb (inherited (suffixKey dp)) = false) as ->; [|done].
    apply andb_false_iff.
    destruct (decide (occurrences (suffixKey dp) keys = 1%nat)) as [H1|H1];
      [|left; by apply bool_decide_eq_false_2].
    right. destruct (inherited (suffixKey dp)); [done|].
    destruct Hone as [_ Hone]. by discriminate Hone.
Qed.

(** What a round does to the objects, given that [toProcess] refers to each
    object once and [seenCount] is empty at the start. *)
Lemma round_lookup st i :
  NoDup (toProcess st) -> seenCount st = ∅ ->
  displayPaths (round st) !! i
  = if decide (i ∈ toProcess st)
    then (fun dp => if isFinal (keysOf (displayPaths st) (toProcess st)) dp
                    then markDone dp else extend dp) <$> displayPaths st !! i
    else displayPaths st !! i.
Proof.
  intros Hnd Hsc. unfold round; cbn [displayPaths]. rewrite Hsc.
  rewrite markPass_lookup by done.
  case_decide; [|done].
  destruct (displayPaths st !! i) as [dp|]; [|done]. simpl. f_equal.
  apply markOrExtend_counted, countPass_counted.
Qed.

Lemma toProcess_round st i :
  i ∈ toProcess (round st)
  <-> i ∈ toProcess st
      /\ exists dp, displayPaths (round st) !! i = Some dp /\ done dp = false.
Proof.
  unfold round at 1; cbn [toProcess]. rewrite list_elem_of_filter.
  unfold notDone. fold (round st). split.
  - intros [Hnd Hin]. split; [done|]. unfold round; cbn [displayPaths].
    destruct (markPass _ _ _ !! i) as [dp|]; [|done].
    exists dp. split; [done|]. by destruct (done dp).
  - intros [Hin (dp & Hdp & Hd)]. split; [|done].
    unfold round in Hdp; cbn [displayPaths] in Hdp. by rewrite Hdp, Hd.
Qed.

End LoopFacts.

(** ** [computeDisplayPaths]: the states of the loop *)

Section DisplayPathFacts.
Import Js DisplayPaths.

Variable pathSeparatorFor : string -> ascii.

#[local] Abbreviation lastSegments := (lastSegments pathSeparatorFor).
#[local] Abbreviation wfState := (wfState pathSeparatorFor).
#[local] Abbreviation plainNames := (plainNames pathSeparatorFor).
#[local] Abbreviation sharedSuffix := (sharedSuffix pathSeparatorFor).
#[local] Abbreviation slashFree := (slashFree pathSeparatorFor).
#[local] Abbreviation history := (history pathSeparatorFor).

Lemma wf_initial filePaths :
  wfState filePaths (initialState pathSeparatorFor filePaths).
Proof.
  unfold initialState. split; cbn [displayPaths toProcess currentDepth seenCount].
  - by rewrite length_map.
  - intros i dp. rewrite list_lookup_fmap.
    destruct (filePaths !! i) as [p|]; [|done].
    intros [= <-]. by exists p.
  - intros i dp. rewrite list_lookup_fmap.
    destruct (filePaths !! i) as [p|]; [|done].
    intros [= <-]. simpl. rewrite length_reverse.
    pose proof (split_length_pos (pathSeparatorFor p) p). lia.
  - intros i dp. rewrite list_lookup_fmap.
    destruct (filePaths !! i) as [p|]; [|done].
    by intros [= <-] _.
  - intros i dp Hdp Hni. exfalso. apply Hni.
    apply lookup_lt_Some in Hdp. apply elem_of_seq. lia.
  - apply NoDup_seq.
  - intros i [_ Hi]%elem_of_seq. by apply lookup_lt_is_Some.
  - done.
Qed.

Lemma wf_round filePaths st :
  wfState filePaths st -> wfState filePaths (round st).
Proof.
  intros W.
  pose proof (fun i => round_lookup st i (wf_nodup _ _ _ W) (wf_seen _ _ _ W))
    as Hlook.
  set (keys := keysOf (displayPaths st) (toProcess st)) in Hlook.
  assert (Hcase : forall i dp', displayPaths (round st) !! i = Some dp' ->
    (i ∈ toProcess st /\ exists dp, displayPaths st !! i = Some dp
       /\ dp' = (if isFinal keys dp then markDone dp else extend dp))
    \/ ((i ∉ toProcess st) /\ displayPaths st !! i = Some dp')).
  { intros i dp'. rewrite Hlook. case_decide; [|by right].
    destruct (displayPaths st !! i) as [dp|]; [|done].
    intros [= <-]. left. eauto. }
  split.
  - unfold round; cbn [displayPaths].
    rewrite markPass_length. apply (wf_length _ _ _ W).
  - intros i dp' [(_ & dp & Hdp & ->)|[_ Hdp]]%Hcase;
      [|by apply (wf_origin _ _ _ W)].
    destruct (wf_origin _ _ _ W i dp Hdp) as (p & ? & ? & ?).
    exists p. by destruct (isFinal keys dp).
  - intros i dp' [(Hin & dp & Hdp & ->)|[_ Hdp]]%Hcase;
      [|by apply (wf_depth _ _ _ W i)].
    pose proof (wf_depth _ _ _ W i dp Hdp).
    unfold isFinal. destruct (Nat.eqb_spec (depth dp) (length (pathParts dp)));
      [rewrite orb_true_r; simpl; lia|].
    rewrite orb_false_r. destruct (_ && _); simpl; lia.
  - intros i dp' Hdp' Hin'. rewrite currentDepth_round.
    apply toProcess_round in Hin' as (Hin & dp'' & Hdp'' & Hnd).
    assert (dp'' = dp') as -> by congruence.
    apply Hcase in Hdp' as [(_ & dp & Hdp & ->)|[? _]]; [|done].
    destruct (wf_active _ _ _ W i dp Hdp Hin) as [Hd Hf].
    destruct (isFinal keys dp); simpl in *; [done|]. split; [lia|done].
  - intros i dp' Hdp' Hni'. rewrite currentDepth_round.
    destruct (Hcase _ _ Hdp') as [(Hin & dp & Hdp & ->)|[Hni Hdp]].
    + destruct (wf_active _ _ _ W i dp Hdp Hin) as [Hd Hf].
      destruct (isFinal keys dp) eqn:Efin; simpl; [split; [lia|done]|].
      exfalso. apply Hni'. apply toProcess_round. split; [done|].
      exists (extend dp). split; [|done].
      rewrite Hlook, decide_True, Hdp by done. simpl. by rewrite Efin.
    + destruct (wf_final _ _ _ W i dp' Hdp Hni). split; [lia|done].
  - unfold round; cbn [toProcess]. apply NoDup_filter, (wf_nodup _ _ _ W).
  - intros i (Hin & dp & Hdp & _)%toProcess_round. eauto.
  - done.
Qed.

Lemma wf_rounds filePaths n :
  wfState filePaths (Nat.iter n round (initialState pathSeparatorFor filePaths)).
Proof.
  induction n as [|n IH]; [apply wf_initial|].
  rewrite Nat.iter_succ. by apply wf_round.
Qed.

Lemma wf_whileLoop filePaths maxDepth :
  wfState filePaths
    (whileLoop maxDepth (initialState pathSeparatorFor filePaths)).
Proof.
  apply whileLoop_invariant; [apply wf_initial|].
  intros s Hs _. by apply wf_round.
Qed.

(** The object of [displayPaths] that belongs to a path, when the loop has
    ended. *)
Lemma finalDisplayPaths_lookup filePaths maxDepth i p :
  filePaths !! i = Some p ->
  exists dp, finalDisplayPaths pathSeparatorFor filePaths maxDepth !! i = Some dp
    /\ separator dp = pathSeparatorFor p
    /\ pathParts dp = reverse (segments pathSeparatorFor p)
    /\ (1 <= depth dp <= length (segments pathSeparatorFor p))%nat.
Proof.
  intros Hp. pose proof (wf_whileLoop filePaths maxDepth) as W.
  unfold finalDisplayPaths.
  destruct (lookup_lt_is_Some_2 (displayPaths
    (whileLoop maxDepth (initialState pathSeparatorFor filePaths))) i)
    as [dp Hdp].
  { rewrite (wf_length _ _ _ W). by eapply lookup_lt_Some. }
  exists dp. split; [done|].
  destruct (wf_origin _ _ _ W i dp Hdp) as (p' & Hp' & Hsep & Hparts).
  assert (p' = p) as -> by congruence.
  pose proof (wf_depth _ _ _ W i dp Hdp) as Hd.
  rewrite Hparts, length_reverse in Hd. done.
Qed.

(** The display string of an object is the join of the last [depth]
    segments of its path. *)
Lemma displayString_lastSegments dp p :
  separator dp = pathSeparatorFor p ->
  pathParts dp = reverse (segments pathSeparatorFor p) ->
  displayString dp
  = join (String (pathSeparatorFor p) EmptyString) (lastSegments (depth dp) p).
Proof.
  intros Hsep Hparts. unfold displayString, displaySegments, slice0, lastSegments.
  rewrite Hsep, Hparts, reverse_take, reverse_involutive, length_reverse.
  reflexivity.
Qed.

(** The rounds of [computeDisplayPaths]: at most [maxDepth - 1]. *)
Lemma loop_rounds_bound filePaths maxDepth :
  let init := initialState pathSeparatorFor filePaths in
  exists n : nat,
    whileLoop maxDepth init = Nat.iter n round init
    /\ Z.of_nat n <= Z.max 0 (maxDepth - 1)
    /\ (forall k, (k < n)%nat -> continues maxDepth (Nat.iter k round init))
    /\ ~ continues maxDepth (Nat.iter n round init).
Proof. intros init. apply (whileLoop_rounds maxDepth init). Qed.

(** [currentDepth] when the loop has ended: no more than the cap, and the
    cap when objects are left to process. *)
Lemma final_currentDepth filePaths maxDepth :
  let final := whileLoop maxDepth (initialState pathSeparatorFor filePaths) in
  currentDepth final <= Z.max 1 maxDepth
  /\ (toProcess final <> [] -> currentDepth final = Z.max 1 maxDepth).
Proof.
  intros final. subst final.
  destruct (loop_rounds_bound filePaths maxDepth)
    as (n & -> & Hn & _ & Hstop).
  rewrite currentDepth_rounds. unfold initialState at 1 3; cbn [currentDepth].
  split; [lia|]. intros Hne. unfold continues in Hstop.
  rewrite currentDepth_rounds in Hstop.
  unfold initialState at 1 in Hstop; cbn [currentDepth] in Hstop.
  destruct (toProcess _) as [|x l] eqn:E; [done|]. simpl in Hstop. lia.
Qed.

(** A round on an object that [toProcess] refers to. *)
Lemma round_active filePaths st i dp :
  wfState filePaths st -> i ∈ toProcess st ->
  displayPaths st !! i = Some dp ->
  if isFinal (keysOf (displayPaths st) (toProcess st)) dp
  then displayPaths (round st) !! i = Some (markDone dp)
       /\ i ∉ toProcess (round st)
  else displayPaths (round st) !! i = Some (extend dp)
       /\ i ∈ toProcess (round st).
Proof.
  intros W Hin Hdp.
  pose proof (round_lookup st i (wf_nodup _ _ _ W) (wf_seen _ _ _ W)) as Hlook.
  rewrite decide_True, Hdp in Hlook by done.
  change (displayPaths (round st) !! i
          = Some (if isFinal (keysOf (displayPaths st) (toProcess st)) dp
                  then markDone dp else extend dp)) in Hlook.
  destruct (wf_active _ _ _ W i dp Hdp Hin) as [_ Hnd].
  destruct (isFinal _ dp); (split; [done|]).
  - intros (_ & dp' & Hdp' & Hd)%toProcess_round.
    rewrite Hlook in Hdp'. by injection Hdp' as <-.
  - apply toProcess_round. split; [done|]. by exists (extend dp).
Qed.

(** A round leaves the objects alone that [toProcess] does not refer to. *)
Lemma round_inactive filePaths st i :
  wfState filePaths st -> i ∉ toProcess st ->
  displayPaths (round st) !! i = displayPaths st !! i
  /\ i ∉ toProcess (round st).
Proof.
  intros W Hni.
  pose proof (round_lookup st i (wf_nodup _ _ _ W) (wf_seen _ _ _ W)) as Hlook.
  rewrite decide_False in Hlook by done. split; [done|].
  by intros [? _]%toProcess_round.
Qed.

(** The keys of such paths are no property names of [Object.prototype]:
    a key of depth one is a last segment, a longer one has a slash. *)
Lemma suffixKey_not_inherited filePaths st i dp :
  wfState filePaths st -> plainNames filePaths ->
  displayPaths st !! i = Some dp -> inherited (suffixKey dp) = false.
Proof.
  intros W Hplain Hdp.
  destruct (wf_origin _ _ _ W i dp Hdp) as (p & Hp & _ & Hparts).
  pose proof (wf_depth _ _ _ W i dp Hdp) as Hd.
  unfold plainNames in Hplain. rewrite Forall_forall in Hplain.
  specialize (Hplain p (list_elem_of_lookup_2 _ _ _ Hp)).
  rewrite <- head_reverse, <- Hparts in Hplain.
  unfold suffixKey, slice0.
  destruct (pathParts dp) as [|x [|y l]]; simpl in Hd; [lia| |].
  - destruct (depth dp) as [|d]; [lia|]. simpl. rewrite take_nil.
    by apply Hplain.
  - destruct (depth dp) as [|[|d]]; [lia| |].
    + simpl. by apply Hplain.
    + cbn [take]. destruct (inherited _) eqn:E; [|done].
      apply inherited_no_slash in E.
      change "/" with (String "/"%char EmptyString) in E.
      by rewrite contains_join_cons_cons in E.
Qed.

Lemma twins_initial filePaths i j p :
  filePaths !! i = Some p -> filePaths !! j = Some p ->
  twins i j (initialState pathSeparatorFor filePaths).
Proof.
  intros Hi Hj. unfold twins, initialState; cbn [displayPaths toProcess].
  rewrite !list_lookup_fmap, Hi, Hj, !elem_of_seq, length_map.
  apply lookup_lt_Some in Hi as Hi'. apply lookup_lt_Some in Hj as Hj'.
  split; [done|]. split; [lia|].
  intros dp _ Hni. exfalso. apply Hni. apply elem_of_seq. lia.
Qed.

Lemma twins_round filePaths st i j :
  i <> j -> wfState filePaths st -> twins i j st -> twins i j (round st).
Proof.
  intros Hne W (Heq & Hiff & Hwhole).
  destruct (decide (i ∈ toProcess st)) as [Hi|Hi].
  - pose proof (proj1 Hiff Hi) as Hj.
    destruct (wf_refs _ _ _ W i Hi) as [dp Hdp].
    assert (Hdpj : displayPaths st !! j = Some dp) by (by rewrite <- Heq).
    pose proof (round_active _ _ _ _ W Hi Hdp) as Ri.
    pose proof (round_active _ _ _ _ W Hj Hdpj) as Rj.
    pose proof (occurrences_keysOf_two (displayPaths st) (toProcess st)
                  i j dp dp Hne Hi Hj Hdp Hdpj eq_refl) as Htwo.
    destruct (isFinal _ dp) eqn:Efin.
    + destruct Ri as [Ri Ri'], Rj as [Rj Rj'].
      split; [by rewrite Ri, Rj|]. split; [done|].
      intros dp' Hdp' _. rewrite Ri in Hdp'. injection Hdp' as <-.
      unfold isFinal in Efin. rewrite bool_decide_eq_false_2 in Efin by lia.
      simpl in *. by apply Nat.eqb_eq.
    + destruct Ri as [Ri Ri'], Rj as [Rj Rj'].
      split; [by rewrite Ri, Rj|]. split; [done|]. done.
  - assert (Hj : j ∉ toProcess st) by (by rewrite <- Hiff).
    destruct (round_inactive _ _ _ W Hi) as [Ri Ri'].
    destruct (round_inactive _ _ _ W Hj) as [Rj Rj'].
    split; [by rewrite Ri, Rj|]. split; [done|].
    intros dp Hdp _. rewrite Ri in Hdp. by apply Hwhole.
Qed.

(** The depth that the object of a path reaches which the list holds
    twice: the cap, or the number of its segments if that is less. *)
Lemma duplicate_depth filePaths maxDepth i j p :
  i <> j -> filePaths !! i = Some p -> filePaths !! j = Some p ->
  exists dp,
    finalDisplayPaths pathSeparatorFor filePaths maxDepth !! i = Some dp
    /\ separator dp = pathSeparatorFor p
    /\ pathParts dp = reverse (segments pathSeparatorFor p)
    /\ depth dp = min (length (segments pathSeparatorFor p))
                      (Z.to_nat (Z.max 1 maxDepth)).
Proof.
  intros Hne Hi Hj.
  destruct (finalDisplayPaths_lookup filePaths maxDepth i p Hi)
    as (dp & Hdp & Hsep & Hparts & Hd).
  exists dp. do 3 (split; [done|]).
  unfold finalDisplayPaths in Hdp.
  destruct (final_currentDepth filePaths maxDepth) as [Hle Hcap].
  assert (Hinv : wfState filePaths
            (whileLoop maxDepth (initialState pathSeparatorFor filePaths))
          /\ twins i j
            (whileLoop maxDepth (initialState pathSeparatorFor filePaths))).
  { apply (whileLoop_invariant (fun s => wfState filePaths s /\ twins i j s)).
    - split; [apply wf_initial | by eapply twins_initial].
    - intros s [W T] _. split; [by apply wf_round | by eapply twins_round]. }
  destruct Hinv as [W (_ & _ & Hwhole)].
  destruct (decide (i ∈ toProcess
    (whileLoop maxDepth (initialState pathSeparatorFor filePaths)))) as [Hin|Hin].
  - destruct (wf_active _ _ _ W i dp Hdp Hin) as [Hcur _].
    rewrite Hcap in Hcur; [lia|].
    intros E. rewrite E in Hin. by apply elem_of_nil in Hin.
  - destruct (wf_final _ _ _ W i dp Hdp Hin) as [Hcur _].
    specialize (Hwhole dp Hdp Hin). rewrite Hparts, length_reverse in Hwhole.
    lia.
Qed.

Lemma isFinal_plain keys dp :
  inherited (suffixKey dp) = false ->
  isFinal keys dp
  = bool_decide (occurrences (suffixKey dp) keys = 1%nat
                 \/ depth dp = length (pathParts dp)).
Proof.
  intros Hplain. unfold isFinal. rewrite Hplain, andb_true_r.
  destruct (decide (occurrences (suffixKey dp) keys = 1%nat)) as [H1|H1];
    destruct (Nat.eqb_spec (depth dp) (length (pathParts dp))) as [H2|H2].
  - rewrite !bool_decide_eq_true_2; [done|by left|done].
  - rewrite !bool_decide_eq_true_2; [done|by left|done].
  - rewrite bool_decide_eq_false_2, bool_decide_eq_true_2; [done|by right|done].
  - rewrite !bool_decide_eq_false_2; [done|by intros [?|?]|done].
Qed.

(** No object gets deeper than the cap. *)
Lemma final_depth_le filePaths maxDepth i dp :
  finalDisplayPaths pathSeparatorFor filePaths maxDepth !! i = Some dp ->
  Z.of_nat (depth dp) <= Z.max 1 maxDepth.
Proof.
  unfold finalDisplayPaths. intros Hdp.
  pose proof (wf_whileLoop filePaths maxDepth) as W.
  destruct (final_currentDepth filePaths maxDepth) as [Hle _].
  destruct (decide (i ∈ toProcess
    (whileLoop maxDepth (initialState pathSeparatorFor filePaths)))) as [Hin|Hin].
  - destruct (wf_active _ _ _ W i dp Hdp Hin). lia.
  - destruct (wf_final _ _ _ W i dp Hdp Hin). lia.
Qed.

Lemma lastSegments_length k p :
  (k <= length (segments pathSeparatorFor p))%nat ->
  length (lastSegments k p) = k.
Proof. intros. unfold lastSegments. rewrite length_drop. lia. Qed.

Lemma lastSegments_all p :
  lastSegments (length (segments pathSeparatorFor p)) p
  = segments pathSeparatorFor p.
Proof. unfold lastSegments. by rewrite Nat.sub_diag. Qed.

(** *** The shortest unique suffix *)

Lemma take_pathParts dp p d :
  pathParts dp = reverse (segments pathSeparatorFor p) ->
  take d (pathParts dp) = reverse (lastSegments d p).
Proof. intros ->. unfold lastSegments. apply take_reverse. Qed.

Lemma lastSegments_le k d p q :
  (k <= d)%nat ->
  (d <= length (segments pathSeparatorFor p))%nat ->
  (d <= length (segments pathSeparatorFor q))%nat ->
  lastSegments d q = lastSegments d p ->
  lastSegments k q = lastSegments k p.
Proof.
  intros Hk Hp Hq Heq. unfold lastSegments in *.
  replace (length (segments pathSeparatorFor q) - k)%nat
    with ((length (segments pathSeparatorFor q) - d) + (d - k))%nat by lia.
  replace (length (segments pathSeparatorFor p) - k)%nat
    with ((length (segments pathSeparatorFor p) - d) + (d - k))%nat by lia.
  by rewrite <- !drop_drop, Heq.
Qed.

Lemma suffixKey_lastSegments dp p :
  pathParts dp = reverse (segments pathSeparatorFor p) ->
  suffixKey dp = join "/" (reverse (lastSegments (depth dp) p)).
Proof. intros H. unfold suffixKey, slice0. by rewrite (take_pathParts dp p). Qed.

Lemma history_initial filePaths :
  history filePaths (initialState pathSeparatorFor filePaths).
Proof.
  split.
  - intros i dp k. unfold initialState; cbn [displayPaths].
    rewrite list_lookup_fmap. destruct (filePaths !! i); [|done].
    intros [= <-]. simpl. lia.
  - intros i dp Hdp Hni. exfalso. apply Hni.
    unfold initialState in *; cbn [displayPaths toProcess] in *.
    apply lookup_lt_Some in Hdp. apply elem_of_seq. lia.
Qed.

Lemma history_round filePaths st :
  plainNames filePaths -> slashFree filePaths ->
  wfState filePaths st -> history filePaths st ->
  history filePaths (round st).
Proof.
  intros Hplain Hslash W [Hshort Hstop].
  assert (Hfree : forall j dpj, displayPaths st !! j = Some dpj ->
    take (depth dpj) (pathParts dpj) <> []
    /\ Forall (fun x => contains "/" x = false)
         (take (depth dpj) (pathParts dpj))).
  { intros j dpj Hdpj.
    destruct (wf_origin _ _ _ W j dpj Hdpj) as (q & Hq & _ & Hparts).
    pose proof (wf_depth _ _ _ W j dpj Hdpj) as Hd. split.
    - intros E. apply (f_equal length) in E. rewrite length_take in E.
      simpl in E. lia.
    - apply Forall_take. rewrite Hparts. apply Forall_reverse.
      unfold slashFree in Hslash. rewrite Forall_forall in Hslash.
      apply Hslash. by eapply list_elem_of_lookup_2. }
  split.
  - intros i dp' k Hdp' Hk.
    destruct (decide (i ∈ toProcess st)) as [Hin|Hin].
    + destruct (wf_refs _ _ _ W i Hin) as [dp Hdp].
      pose proof (round_active _ _ _ _ W Hin Hdp) as R.
      rewrite isFinal_plain in R by (by eapply suffixKey_not_inherited).
      destruct (bool_decide _) eqn:Efin; destruct R as [R _];
        rewrite R in Hdp'; injection Hdp' as <-; simpl in Hk;
        [by eapply Hshort|].
      destruct (decide (k = depth dp)) as [->|Hne];
        [|eapply Hshort; [done|lia]].
      apply bool_decide_eq_false_1 in Efin.
      destruct (occurrences_keysOf_other (displayPaths st) (toProcess st) i dp
                  (wf_nodup _ _ _ W) Hin Hdp) as (j & dpj & Hji & Hj & Hdpj & Hkey).
      { intros E. apply Efin. by left. }
      destruct (wf_origin _ _ _ W i dp Hdp) as (p & Hp & _ & Hparts).
      destruct (wf_origin _ _ _ W j dpj Hdpj) as (q & Hq & _ & Hpartsq).
      destruct (wf_active _ _ _ W i dp Hdp Hin) as [Hdi _].
      destruct (wf_active _ _ _ W j dpj Hdpj Hj) as [Hdj _].
      assert (Hdd : depth dpj = depth dp) by lia.
      pose proof (wf_depth _ _ _ W j dpj Hdpj) as Hlen.
      rewrite Hpartsq, length_reverse in Hlen.
      exists j, p, q. do 3 (split; [done|]). split; [lia|].
      unfold suffixKey, slice0 in Hkey.
      change "/" with (String "/"%char EmptyString) in Hkey.
      apply join_inj in Hkey;
        [|by apply (Hfree j dpj)|by apply (Hfree i dp)
         |by apply (Hfree j dpj)|by apply (Hfree i dp)].
      rewrite (take_pathParts dpj q), (take_pathParts dp p), Hdd in Hkey by done.
      apply (f_equal reverse) in Hkey. by rewrite !reverse_involutive in Hkey.
    + destruct (round_inactive _ _ _ W Hin) as [R _].
      rewrite R in Hdp'. by eapply Hshort.
  - intros i dp' Hdp' Hni'.
    destruct (decide (i ∈ toProcess st)) as [Hin|Hin].
    + destruct (wf_refs _ _ _ W i Hin) as [dp Hdp].
      pose proof (round_active _ _ _ _ W Hin Hdp) as R.
      rewrite isFinal_plain in R by (by eapply suffixKey_not_inherited).
      destruct (bool_decide _) eqn:Efin; destruct R as [R R']; [|done].
      rewrite R in Hdp'. injection Hdp' as <-. simpl.
      apply bool_decide_eq_true_1 in Efin as [Hone|Hwhole]; [left|by right].
      intros (j & p & q & Hji & Hp & Hq & Hlen & Hshare).
      destruct (wf_origin _ _ _ W i dp Hdp) as (p' & Hp' & _ & Hparts).
      assert (p' = p) as -> by congruence.
      destruct (wf_active _ _ _ W i dp Hdp Hin) as [Hdi _].
      pose proof (wf_depth _ _ _ W i dp Hdp) as Hleni.
      rewrite Hparts, length_reverse in Hleni.
      destruct (lookup_lt_is_Some_2 (displayPaths st) j) as [dpj Hdpj].
      { rewrite (wf_length _ _ _ W). by eapply lookup_lt_Some. }
      destruct (wf_origin _ _ _ W j dpj Hdpj) as (q' & Hq' & _ & Hpartsq).
      assert (q' = q) as -> by congruence.
      pose proof (wf_depth _ _ _ W j dpj Hdpj) as Hlenj.
      rewrite Hpartsq, length_reverse in Hlenj.
      destruct (decide (j ∈ toProcess st)) as [Hj|Hj].
      * destruct (wf_active _ _ _ W j dpj Hdpj Hj) as [Hdj _].
        assert (Hdd : depth dpj = depth dp) by lia.
        pose proof (occurrences_keysOf_two (displayPaths st) (toProcess st)
                      i j dp dpj (not_eq_sym Hji) Hin Hj Hdp Hdpj) as Htwo.
        rewrite (suffixKey_lastSegments dpj q), (suffixKey_lastSegments dp p),
          Hdd, Hshare in Htwo by done.
        specialize (Htwo eq_refl).
        rewrite (suffixKey_lastSegments dp p) in Hone by done. lia.
      * destruct (wf_final _ _ _ W j dpj Hdpj Hj) as [Hdj _].
        destruct (Hstop j dpj Hdpj Hj) as [Hns|Hw].
        -- apply Hns. exists i, q, p. do 3 (split; [done|]). split; [lia|].
           symmetry. apply (lastSegments_le _ (depth dp)); [lia|lia|lia|done].
        -- rewrite Hpartsq, length_reverse in Hw. lia.
    + destruct (round_inactive _ _ _ W Hin) as [R _].
      rewrite R in Hdp'. by apply Hstop.
Qed.

(** Paths that are separated by slashes have no slash in their segments. *)
Lemma slashFree_posix filePaths :
  Forall (fun p => pathSeparatorFor p = "/"%char) filePaths ->
  slashFree filePaths.
Proof.
  unfold DisplayPaths.slashFree. intros H.
  eapply Forall_impl; [exact H|]. intros p Hp. simpl in Hp.
  unfold segments. rewrite Hp. apply split_pieces_free.
Qed.

End DisplayPathFacts.

(** ** [computeDisplayPaths]: the claims *)

Section DisplayPathClaims.
Import Js DisplayPaths.

Variable pathSeparatorFor : string -> ascii.

(** C8. For every list of paths and every [maxDepth], [computeDisplayPaths]
    returns as many display paths as it was given paths, in the same order:
    the display path at an index is made of a contiguous, non-empty suffix of
    the segments of the path at that index, joined with the separator of
    that path. *)
Theorem computeDisplayPaths_suffixes (filePaths : list string) (maxDepth : Z) :
  length (computeDisplayPaths pathSeparatorFor filePaths maxDepth)
  = length filePaths
  /\ forall i p, filePaths !! i = Some p ->
       exists front back,
         segments pathSeparatorFor p = front ++ back
         /\ back <> []
         /\ computeDisplayPaths pathSeparatorFor filePaths maxDepth !! i
            = Some (join (String (pathSeparatorFor p) EmptyString) back).
Proof.
  split.
  - unfold computeDisplayPaths, finalDisplayPaths. rewrite length_map.
    apply (wf_length _ _ _ (wf_whileLoop pathSeparatorFor filePaths maxDepth)).
  - intros i p Hp.
    destruct (finalDisplayPaths_lookup pathSeparatorFor filePaths maxDepth i p Hp)
      as (dp & Hdp & Hsep & Hparts & Hd).
    set (segs := segments pathSeparatorFor p) in *.
    exists (take (length segs - depth dp) segs),
           (drop (length segs - depth dp) segs).
    split; [by rewrite take_drop|]. split.
    + intros Hnil. apply (f_equal length) in Hnil.
      rewrite length_drop in Hnil. simpl in Hnil. lia.
    + unfold computeDisplayPaths. rewrite list_lookup_fmap, Hdp. simpl.
      f_equal. by apply displayString_lastSegments.
Qed.

(** C9, as the code has it. [computeDisplayPaths] is total. Its loop ends
    after at most [maxDepth - 1] rounds (none when [maxDepth] is below 2); an
    object of [toProcess] whose depth is the number of its parts is marked as
    done by the round, and leaves [toProcess]. A path that the list holds
    more than once is never unique: its display path is made of its last
    [maxDepth] segments (its last one when [maxDepth] is below 1), and is the
    entire path only if the path has no more segments than that. *)
Theorem computeDisplayPaths_terminates (filePaths : list string) (maxDepth : Z) :
  let init := initialState pathSeparatorFor filePaths in
  (exists n : nat,
     whileLoop maxDepth init = Nat.iter n round init
     /\ Z.of_nat n <= Z.max 0 (maxDepth - 1)
     /\ forall r i dp, (r < n)%nat ->
          let st := Nat.iter r round init in
          i ∈ toProcess st -> displayPaths st !! i = Some dp ->
          depth dp = length (pathParts dp) ->
          displayPaths (round st) !! i = Some (markDone dp)
          /\ i ∉ toProcess (round st))
  /\ (forall i j p, i <> j ->
        filePaths !! i = Some p -> filePaths !! j = Some p ->
        let segs := segments pathSeparatorFor p in
        let cap := Z.to_nat (Z.max 1 maxDepth) in
        computeDisplayPaths pathSeparatorFor filePaths maxDepth !! i
        = Some (join (String (pathSeparatorFor p) EmptyString)
                  (lastSegments pathSeparatorFor (min (length segs) cap) p))
        /\ ((length segs <= cap)%nat ->
            computeDisplayPaths pathSeparatorFor filePaths maxDepth !! i
            = Some p)).
Proof.
  intros init. split.
  - destruct (loop_rounds_bound pathSeparatorFor filePaths maxDepth)
      as (n & Heq & Hn & _ & _).
    exists n. split; [done|]. split; [done|].
    intros r i dp Hr st Hin Hdp Hwhole.
    pose proof (round_active pathSeparatorFor filePaths st i dp
                  (wf_rounds pathSeparatorFor filePaths r) Hin Hdp) as R.
    unfold isFinal in R. rewrite (proj2 (Nat.eqb_eq _ _) Hwhole) in R.
    by rewrite orb_true_r in R.
  - intros i j p Hne Hi Hj segs cap.
    destruct (duplicate_depth pathSeparatorFor filePaths maxDepth i j p Hne Hi Hj)
      as (dp & Hdp & Hsep & Hparts & Hd).
    assert (Hres : computeDisplayPaths pathSeparatorFor filePaths maxDepth !! i
      = Some (join (String (pathSeparatorFor p) EmptyString)
                (lastSegments pathSeparatorFor (min (length segs) cap) p))).
    { unfold computeDisplayPaths. rewrite list_lookup_fmap, Hdp. simpl.
      rewrite (displayString_lastSegments pathSeparatorFor dp p Hsep Hparts).
      by rewrite Hd. }
    split; [done|]. intros Hshort. rewrite Hres.
    rewrite Nat.min_l by done. subst segs.
    rewrite lastSegments_all. unfold segments. by rewrite join_split.
Qed.




(** The depth that the loop ends with at an index, for paths with plain
    names and without slashes in their segments: the least number of last
    segments that is not shared, or that is the whole path, or the cap. *)
Lemma shortest_suffix
    (filePaths : list string) (maxDepth : Z) :
  plainNames pathSeparatorFor filePaths ->
  slashFree pathSeparatorFor filePaths ->
  forall i p, filePaths !! i = Some p ->
  exists k : nat,
    computeDisplayPaths pathSeparatorFor filePaths maxDepth !! i
    = Some (join (String (pathSeparatorFor p) EmptyString)
              (lastSegments pathSeparatorFor k p))
    /\ (1 <= k <= length (segments pathSeparatorFor p))%nat
    /\ Z.of_nat k <= Z.max 1 maxDepth
    /\ (forall k', (1 <= k' < k)%nat ->
          sharedSuffix pathSeparatorFor filePaths k' i)
    /\ (~ sharedSuffix pathSeparatorFor filePaths k i
        \/ k = length (segments pathSeparatorFor p)
        \/ Z.of_nat k = Z.max 1 maxDepth).
Proof.
  intros Hplain Hslash i p Hp.
  destruct (finalDisplayPaths_lookup pathSeparatorFor filePaths maxDepth i p Hp)
    as (dp & Hdp & Hsep & Hparts & Hd).
  pose proof (final_depth_le pathSeparatorFor filePaths maxDepth i dp Hdp) as Hle.
  destruct (final_currentDepth pathSeparatorFor filePaths maxDepth) as [_ Hcur].
  assert (Hinv : wfState pathSeparatorFor filePaths
            (whileLoop maxDepth (initialState pathSeparatorFor filePaths))
          /\ history pathSeparatorFor filePaths
            (whileLoop maxDepth (initialState pathSeparatorFor filePaths))).
  { apply (whileLoop_invariant
      (fun s => wfState pathSeparatorFor filePaths s
                /\ history pathSeparatorFor filePaths s)).
    - split; [apply wf_initial | apply history_initial].
    - intros s [W H] _. split; [by apply wf_round | by apply history_round]. }
  destruct Hinv as [W [Hshort Hstop]]. unfold finalDisplayPaths in Hdp.
  exists (depth dp). split.
  { unfold computeDisplayPaths, finalDisplayPaths.
    rewrite list_lookup_fmap, Hdp. simpl.
    f_equal. by apply displayString_lastSegments. }
  split; [done|]. split; [done|]. split.
  { intros k' Hk'. by eapply Hshort. }
  destruct (decide (i ∈ toProcess
    (whileLoop maxDepth (initialState pathSeparatorFor filePaths)))) as [Hin|Hin].
  - right. right.
    destruct (wf_active _ _ _ W i dp Hdp Hin) as [Hdi _].
    rewrite Hcur in Hdi; [lia|].
    intros E. rewrite E in Hin. by apply elem_of_nil in Hin.
  - destruct (Hstop i dp Hdp Hin) as [Hu|Hw]; [by left|].
    right. left. by rewrite Hparts, length_reverse in Hw.
Qed.

(** X1. What holds of the shortest unique suffix, for paths whose last segment
    is no property name of [Object.prototype] and whose segments have no
    slash in them: the display path of a path is made of its last [k]
    segments, where no shorter suffix is unique (every one is also a suffix
    of a path at another index), and where the suffix of [k] segments is
    unique, or is the whole path, or has reached the cap. *)
Theorem computeDisplayPaths_shortest_unique
    (filePaths : list string) (maxDepth : Z) :
  plainNames pathSeparatorFor filePaths ->
  slashFree pathSeparatorFor filePaths ->
  forall i p, filePaths !! i = Some p ->
  exists k : nat,
    computeDisplayPaths pathSeparatorFor filePaths maxDepth !! i
    = Some (join (String (pathSeparatorFor p) EmptyString)
              (lastSegments pathSeparatorFor k p))
    /\ (1 <= k <= length (segments pathSeparatorFor p))%nat
    /\ Z.of_nat k <= Z.max 1 maxDepth
    /\ (forall k', (1 <= k' < k)%nat ->
          sharedSuffix pathSeparatorFor filePaths k' i)
    /\ (~ sharedSuffix pathSeparatorFor filePaths k i
        \/ k = length (segments pathSeparatorFor p)
        \/ Z.of_nat k = Z.max 1 maxDepth).
Proof. exact (shortest_suffix filePaths maxDepth). Qed.

End DisplayPathClaims.

(** ** [computeDisplayPaths] on given paths *)

Section DisplayPathExamples.
Import Js DisplayPaths.

(** The three examples of the comment above [computeDisplayPaths]. *)
Example computeDisplayPaths_example_1 :
  computeDisplayPaths posixSeparatorFor ["/a/b/c.js"; "/a/d/c.js"]
    defaultMaxDepth = ["b/c.js"; "d/c.js"].
Proof. vm_compute. reflexivity. Qed.

Example computeDisplayPaths_example_2 :
  computeDisplayPaths posixSeparatorFor ["/a/b/c.js"; "/a/b/d.js"]
    defaultMaxDepth = ["c.js"; "d.js"].
Proof. vm_compute. reflexivity. Qed.

Example computeDisplayPaths_example_3 :
  computeDisplayPaths posixSeparatorFor ["/a/b.js"; "/c/a/b.js"]
    defaultMaxDepth = ["/a/b.js"; "c/a/b.js"].
Proof. vm_compute. reflexivity. Qed.

(** C1. [computeDisplayPaths] is to return, for each path, the shortest
    suffix in whole segments that no other path of the list has. For the one
    path [/a/constructor] that is the last segment, [constructor], which no
    other path shares. The code returns the suffix of two segments: under
    the key [constructor] the empty object [seenCount] already has a
    member, inherited from [Object.prototype], so that the first [forEach]
    stores [NaN] and [seenCount[path] === 1] fails. *)
Theorem computeDisplayPaths_inherited_name :
  computeDisplayPaths posixSeparatorFor ["/a/constructor"] defaultMaxDepth
  = ["a/constructor"]
  /\ lastSegments posixSeparatorFor 1 "/a/constructor" = ["constructor"]
  /\ ~ sharedSuffix posixSeparatorFor ["/a/constructor"] 1 0.
Proof.
  split; [vm_compute; reflexivity|]. split; [vm_compute; reflexivity|].
  intros (j & p & q & Hne & _ & Hq & _).
  destruct j as [|j]; [done|]. by destruct j.
Qed.

(** The shortest unique suffixes of the first example of the source. *)
Lemma computeDisplayPaths_shortest_unique_witness :
  exists k : nat,
    computeDisplayPaths posixSeparatorFor ["/a/b/c.js"; "/a/d/c.js"] 5 !! 0%nat
    = Some (join "/" (lastSegments posixSeparatorFor k "/a/b/c.js"))
    /\ (forall k', (1 <= k' < k)%nat ->
          sharedSuffix posixSeparatorFor ["/a/b/c.js"; "/a/d/c.js"] k' 0).
Proof.
  destruct (computeDisplayPaths_shortest_unique posixSeparatorFor
              ["/a/b/c.js"; "/a/d/c.js"] 5) with (i := 0%nat) (p := "/a/b/c.js")
    as (k & Hres & _ & _ & Hshort & _).
  - repeat constructor; intros b Hb; vm_compute in Hb;
      injection Hb as <-; reflexivity.
  - repeat constructor.
  - reflexivity.
  - exists k. split; [exact Hres | exact Hshort].
Defined.

(** Paths that are separated by backslashes, with a slash inside a segment.
    After the first round the suffixes of the first and of the third path
    are different, [a/c] before [b] and [c] before [b/a], but they have one
    key, [b/a/c]: the next round extends both, to the whole path. *)
Example computeDisplayPaths_slash_in_segment :
  keysOf
    (displayPaths
       (round (initialState (fun _ => "092"%char)
                 ["x\a/c\b"; "z\q\b"; "y\c\b/a"; "w\q\b/a"])))
    [0; 1; 2; 3]%nat
  = ["b/a/c"; "b/q"; "b/a/c"; "b/a/q"]
  /\ computeDisplayPaths (fun _ => "092"%char)
       ["x\a/c\b"; "z\q\b"; "y\c\b/a"; "w\q\b/a"] defaultMaxDepth
     = ["x\a/c\b"; "q\b"; "y\c\b/a"; "q\b/a"].
Proof. split; vm_compute; reflexivity. Qed.



(** A path with more segments than the cap, twice in the list: the display
    path is not the entire path. *)
Lemma computeDisplayPaths_duplicates_beyond_cap :
  computeDisplayPaths posixSeparatorFor ["/a/b/c/d/e/f"; "/a/b/c/d/e/f"]
    defaultMaxDepth = ["b/c/d/e/f"; "b/c/d/e/f"]
  /\ ~ (forall i p, ["/a/b/c/d/e/f"; "/a/b/c/d/e/f"] !! i = Some p ->
         computeDisplayPaths posixSeparatorFor
           ["/a/b/c/d/e/f"; "/a/b/c/d/e/f"] defaultMaxDepth !! i = Some p).
Proof.
  split; [vm_compute; reflexivity|].
  intros H. specialize (H 0%nat _ eq_refl). vm_compute in H. discriminate H.
Qed.

Lemma computeDisplayPaths_terminates_witness :
  computeDisplayPaths posixSeparatorFor ["/a/b"; "/a/b"] 5 !! 0%nat
  = Some "/a/b".
Proof.
  destruct (computeDisplayPaths_terminates posixSeparatorFor ["/a/b"; "/a/b"] 5)
    as [_ H].
  destruct (H 0%nat 1%nat "/a/b") as [_ Hwhole];
    [lia | reflexivity | reflexivity |].
  apply Hwhole. vm_compute. lia.
Defined.

Lemma computeDisplayPaths_suffixes_witness :
  exists front back,
    segments posixSeparatorFor "/a/b/c.js" = front ++ back
    /\ back <> []
    /\ computeDisplayPaths posixSeparatorFor ["/a/b/c.js"; "/a/d/c.js"] 5
         !! 0%nat
       = Some (join "/" back).
Proof.
  exact (proj2 (computeDisplayPaths_suffixes posixSeparatorFor
                  ["/a/b/c.js"; "/a/d/c.js"] 5) 0%nat "/a/b/c.js" eq_refl).
Defined.

End DisplayPathExamples.

(** ** [ChangedFilesList.render] *)

Section MapFacts.
Import Js.

Lemma Map_get_key {V} (m : list (string * V)) k :
  k ∈ Map_keys m -> is_Some (Map_get m k).
Proof.
  unfold Map_keys, Map_get. induction m as [|[k' v] m IH]; simpl.
  - by intros ?%elem_of_nil.
  - intros [->|Hin]%elem_of_cons.
    + rewrite String.eqb_refl. by eexists.
    + destruct (String.eqb k' k); [by eexists | by apply IH].
Qed.

Lemma mapWithIndex_returns {A B} (f : A -> nat -> Outcome B) (g : B -> A)
    (l : list A) (index : nat) :
  (forall x i, x ∈ l -> exists y, f x i = Returns y /\ g y = x) ->
  exists ys, mapWithIndex f index l = Returns ys /\ map g ys = l.
Proof.
  revert index. induction l as [|x l IH]; intros index Hf; simpl.
  - by exists [].
  - destruct (Hf x index) as (y & -> & Hy); [left|].
    destruct (IH (S index)) as (ys & -> & Hys).
    { intros x' i Hx'. apply Hf. by right. }
    exists (y :: ys). simpl. by rewrite Hy, Hys.
Qed.

End MapFacts.

Section RenderFacts.
Import Js DisplayPaths ChangedFilesList.

Variable FileChangeStatusValue : Type.
Variable GeneratedFileType : Type.
Variable pathSeparatorFor : string -> ascii.
Variable basename : string -> string.
Variable repositoryForPath : string -> option string.
Variable localeCompare : string -> string -> Z.
Variable Array_sort : forall A : Type, (A -> A -> Z) -> list A -> list A.

Let Props := (Props FileChangeStatusValue GeneratedFileType).
Let render :=
  (render FileChangeStatusValue GeneratedFileType pathSeparatorFor basename
     repositoryForPath localeCompare Array_sort).

(** [render] does not throw: it returns [null] behind its guard, and else
    the list, with a [ChangedFile] for each element of the sorted
    [sizeLimitedFileChanges], which are made from the first [filesToShow]
    keys of [fileStatuses]. *)
Lemma render_cases (props : Props) (state : State) :
  let filesToShow := (100 * visiblePagesCount state)%nat in
  (Map_size (fileStatuses props) = 0%nat
   /\ hideEmptyFolders props = true
   /\ render props state = Returns None)
  \/ (~ (Map_size (fileStatuses props) = 0%nat
        /\ hideEmptyFolders props = true)
      /\ exists element fileChanges,
          render props state = Returns (Some element)
          /\ map filePath fileChanges
             = take filesToShow (Map_keys (fileStatuses props))
          /\ map cfFilePath (changedFiles element)
             = map filePath
                 (Array_sort (FileChange FileChangeStatusValue GeneratedFileType)
                    (fun change1 change2 =>
                       localeCompare (basename (filePath change1))
                                     (basename (filePath change2)))
                    fileChanges)
          /\ showMoreFilesElement element
             = if (filesToShow <? Map_size (fileStatuses props))%nat
               then Some {| className := "icon icon-ellipsis";
                            tooltipTitle :=
                              "Show more files with uncommitted changes";
                            tooltipDelay := 300;
                            tooltipPlacement := "bottom";
                            onClick := fun current =>
                              {| isCollapsed := isCollapsed current;
                                 visiblePagesCount :=
                                   (visiblePagesCount current + 1)%nat |} |}
               else None).
Proof.
  intros filesToShow. unfold render, ChangedFilesList.render.
  change (FILE_CHANGES_INITIAL_PAGE_SIZE * visiblePagesCount state)%nat
    with filesToShow.
  unfold slice0.
  match goal with
  | |- context [mapWithIndex ?f 0%nat ?l] =>
      destruct (mapWithIndex_returns f filePath l 0%nat)
        as (fileChanges & Hmap & Hpaths)
  end.
  { intros x i [j [Hx _]]%elem_of_take.
    destruct (Map_get_key (fileStatuses props) x) as [v ->].
    - unfold Map_keys. by eapply list_elem_of_lookup_2.
    - simpl. by eexists. }
  rewrite Hmap.
  destruct (Nat.eqb_spec (Map_size (fileStatuses props)) 0) as [Hsize|Hsize];
    destruct (hideEmptyFolders props) eqn:Hhide; cbn [andb].
  1: by left.
  all: right; (split; [intros [? ?]; congruence|]).
  all: eexists _, fileChanges; split; [reflexivity|]; split; [exact Hpaths|];
       split; [|reflexivity]; cbn [changedFiles]; by rewrite map_map.
Qed.

(** C10. [render] returns [null] exactly when [fileStatuses] is empty and
    [hideEmptyFolders] is set; when [hideEmptyFolders] is not set it returns
    the list, also for an empty [fileStatuses]. *)
Theorem render_null (props : Props) (state : State) :
  (render props state = Returns None
   <-> Map_size (fileStatuses props) = 0%nat
       /\ hideEmptyFolders props = true)
  /\ (hideEmptyFolders props = false ->
      exists element, render props state = Returns (Some element)).
Proof.
  destruct (render_cases props state)
    as [(Hsize & Hhide & Hnull)|(Hnot & element & changes & Hsome & _)].
  - split; [by split|]. intros Hshow. congruence.
  - split; [|by exists element]. rewrite Hsome. split; [discriminate|done].
Qed.

(** C5. [render] shows at most 100 times [visiblePagesCount] files: the
    first that many keys of [fileStatuses], in an order that the sort by
    base name chooses. It shows the icon for more files exactly when
    [fileStatuses] has more entries than that, and a click on the icon adds
    one to [visiblePagesCount]. [Array.prototype.sort] is taken to permute
    its array. *)
Theorem render_paginates (props : Props) (state : State) :
  (forall A cmp l, Array_sort A cmp l ≡ₚ l) ->
  let filesToShow := (100 * visiblePagesCount state)%nat in
  exists node,
    render props state = Returns node
    /\ (length (renderedFiles node) <= filesToShow)%nat
    /\ map cfFilePath (renderedFiles node)
       ≡ₚ take filesToShow (Map_keys (fileStatuses props))
    /\ (is_Some (renderedShowMore node)
        <-> (filesToShow < Map_size (fileStatuses props))%nat)
    /\ (forall more current, renderedShowMore node = Some more ->
          visiblePagesCount (onClick more current)
          = (visiblePagesCount current + 1)%nat
          /\ isCollapsed (onClick more current) = isCollapsed current).
Proof.
  intros Hsort filesToShow.
  pose proof (render_cases props state) as Hcases.
  cbv zeta in Hcases. fold filesToShow in Hcases.
  destruct Hcases
    as [(Hsize & Hhide & Hnull)
       |(Hnot & element & changes & Hsome & Hpaths & Hfiles & Hmore)].
  - exists None. split; [done|]. unfold Map_size in Hsize.
    apply length_zero_iff_nil in Hsize. unfold Map_keys, Map_size.
    rewrite Hsize. cbn [renderedFiles renderedShowMore map length].
    rewrite take_nil.
    split; [lia|]. split; [done|]. split; [|done].
    split; [by intros [? ?] | lia].
  - exists (Some element). split; [done|]. cbn [renderedFiles renderedShowMore].
    assert (Hperm : map cfFilePath (changedFiles element)
                    ≡ₚ take filesToShow (Map_keys (fileStatuses props))).
    { rewrite Hfiles, <- Hpaths. apply Permutation_map, Hsort. }
    split.
    { rewrite <- (length_map cfFilePath), Hperm, length_take. lia. }
    split; [done|]. rewrite Hmore.
    destruct (Nat.ltb_spec filesToShow (Map_size (fileStatuses props))).
    + split; [by split; [|eexists]|]. by intros more current [= <-].
    + split; [|done]. split; [by intros [? ?] | lia].
Qed.

End RenderFacts.

(** ** [createRemoteConnection] *)

Section RemoteProjectsFacts.
Import Js RemoteProjectsService.

Variable RemoteConnection : Type.

Lemma run_createRemoteConnection
    (answer : Call -> Outcome (option RemoteConnection))
    (config : SerializableRemoteConnectionConfiguration) :
  let prompt := default true (promptReconnectOnFailure config) in
  let reconnect :=
    RemoteConnection_reconnect (host config) (path config)
      (displayTitle config) prompt in
  let dialog :=
    openConnectionDialog
      {| initialServer := host config; initialCwd := path config |} in
  run answer (createRemoteConnection config)
  = match answer reconnect with
    | Throws e => ([reconnect], Throws e)
    | Returns (Some connection) => ([reconnect], Returns (Some connection))
    | Returns None =>
        if prompt then ([reconnect; dialog], answer dialog)
        else ([reconnect], Returns None)
    end.
Proof.
  intros prompt reconnect dialog. subst prompt reconnect dialog.
  unfold createRemoteConnection.
  destruct (promptReconnectOnFailure config) as [[|]|]; cbn [run default].
  all: destruct (answer (RemoteConnection_reconnect _ _ _ _))
         as [[connection|]|e]; cbn [run negb]; try reflexivity.
  all: by destruct (answer (openConnectionDialog _)).
Qed.

(** C4. [createRemoteConnection] first calls [RemoteConnection.reconnect]
    with the saved host and path. If that gives a connection, the
    connection is returned and nothing else is called. If it gives [null]
    and [promptReconnectOnFailure] is [false], [null] is returned and no
    dialog is opened. Otherwise the connection dialog is opened with the
    saved host and path, and what it gives is returned. *)
Theorem createRemoteConnection_reconnects_or_prompts
    (answer : Call -> Outcome (option RemoteConnection))
    (config : SerializableRemoteConnectionConfiguration) :
  let prompt := default true (promptReconnectOnFailure config) in
  let reconnect :=
    RemoteConnection_reconnect (host config) (path config)
      (displayTitle config) prompt in
  let dialog :=
    openConnectionDialog
      {| initialServer := host config; initialCwd := path config |} in
  let result := run answer (createRemoteConnection config) in
  head (fst result) = Some reconnect
  /\ (forall connection, answer reconnect = Returns (Some connection) ->
        result = ([reconnect], Returns (Some connection)))
  /\ (answer reconnect = Returns None ->
      promptReconnectOnFailure config = Some false ->
      result = ([reconnect], Returns None))
  /\ (answer reconnect = Returns None ->
      promptReconnectOnFailure config <> Some false ->
      result = ([reconnect; dialog], answer dialog)).
Proof.
  intros prompt reconnect dialog result.
  pose proof (run_createRemoteConnection answer config) as Hrun.
  cbv zeta in Hrun. fold prompt reconnect dialog result in Hrun.
  rewrite Hrun. split; [|split; [|split]].
  - destruct (answer reconnect) as [[c|]|e]; [done| |done].
    by destruct prompt.
  - by intros connection ->.
  - intros -> Hprompt. subst prompt. by rewrite Hprompt.
  - intros -> Hprompt.
    assert (prompt = true) as ->; [|done]. subst prompt.
    by destruct (promptReconnectOnFailure config) as [[|]|].
Qed.

End RemoteProjectsFacts.

Section RemoteProjectsExamples.
Import Js RemoteProjectsService.

Lemma createRemoteConnection_reconnects_or_prompts_witness :
  run (fun _ : Call => Returns (@None nat))
    (createRemoteConnection
       {| host := "devserver"; path := "/home/user/project";
          displayTitle := "project";
          promptReconnectOnFailure := Some false |})
  = ([RemoteConnection_reconnect "devserver" "/home/user/project" "project"
        false], Returns None).
Proof.
  exact (proj1 (proj2 (proj2
    (createRemoteConnection_reconnects_or_prompts nat
       (fun _ : Call => Returns (@None nat))
       {| host := "devserver"; path := "/home/user/project";
          displayTitle := "project";
          promptReconnectOnFailure := Some false |}))) eq_refl eq_refl).
Defined.

End RemoteProjectsExamples.

(** ** The Mercurial service *)

Section HgServiceFacts.
Import Js HgService.

(** The test of [fetchMergeConflicts] on [mockOutput]: two conflicts, the
    first changed on both sides, the second deleted in ours. *)
Example fetchMergeConflicts_mockOutput :
  map snd (enrichedConflicts (fetchMergeConflicts mockOutput))
  = [BOTH_CHANGED; DELETED_IN_OURS].
Proof. reflexivity. Qed.

(** C3. [fetchMergeConflicts] gives every parsed conflict record a status,
    by its existence flags: a conflict whose base, local and other side all
    exist is [BOTH_CHANGED], and one whose local side does not exist is
    [DELETED_IN_OURS]. *)
Theorem fetchMergeConflicts_classifies (parsed : MergeConflictsOutput) :
  map fst (enrichedConflicts (fetchMergeConflicts parsed)) = conflicts parsed
  /\ forall conflict conflictStatus,
       (conflict, conflictStatus)
         ∈ enrichedConflicts (fetchMergeConflicts parsed) ->
       (sideExists (base conflict) = true ->
        sideExists (local conflict) = true ->
        sideExists (other conflict) = true ->
        conflictStatus = BOTH_CHANGED)
       /\ (sideExists (local conflict) = false ->
           conflictStatus = DELETED_IN_OURS).
Proof.
  unfold fetchMergeConflicts; cbn [enrichedConflicts]. split.
  - rewrite map_map. simpl. apply map_id.
  - intros conflict st (c & [= -> ->] & _)%list_elem_of_fmap.
    unfold HgService.conflictStatus. split.
    + by intros _ -> ->.
    + by intros ->.
Qed.

(** The second conflict of [mockOutput], whose local side does not
    exist. *)
Lemma fetchMergeConflicts_classifies_witness :
  sideExists (local mockConflict2) = false
  /\ conflictStatus mockConflict2 = DELETED_IN_OURS.
Proof.
  split; [reflexivity|].
  refine (proj2 (proj2 (fetchMergeConflicts_classifies mockOutput)
                   mockConflict2 (conflictStatus mockConflict2) _) eq_refl).
  right. left.
Defined.

(** C6. [getConfigValueAsync] returns [null] when the call of [hg] throws;
    the error does not reach the caller. *)
Theorem getConfigValueAsync_null_on_error
    (hgAsyncExecute : list string -> string -> Outcome string)
    (configValue : string -> string)
    (workingDirectory key error : string) :
  hgAsyncExecute ["config"; key] workingDirectory = Throws error ->
  getConfigValueAsync hgAsyncExecute configValue workingDirectory key
  = Returns None.
Proof. intros H. unfold getConfigValueAsync. by rewrite H. Qed.

(** The second test of [getConfigValueAsync]. *)
Lemma getConfigValueAsync_null_on_error_witness :
  getConfigValueAsync (fun _ _ => Throws "Something failed") (fun out => out)
    "/Test/Working/Directory/" "non.existent.config"
  = Returns None.
Proof.
  apply (getConfigValueAsync_null_on_error
           (fun _ _ => Throws "Something failed") (fun out => out)
           "/Test/Working/Directory/" "non.existent.config"
           "Something failed").
  reflexivity.
Defined.

End HgServiceFacts.

(** ** [serverStatusUpdatesToBusyMessages] *)

Section FlowBusyFacts.
Import Js FlowBusyMessages.

Variable nuclideUriToDisplayString : string -> string.

Lemma consistent_subscribed : consistent subscribed.
Proof. split; unfold subscribed; simpl; intros *; by rewrite lookup_empty. Qed.

Lemma unsubscribeInner_lookup root s :
  innerSubscription (unsubscribeInner root s) !! root = None.
Proof.
  unfold unsubscribeInner.
  destruct (innerSubscription s !! root) eqn:E; simpl; [|done].
  apply lookup_delete_eq.
Qed.

Lemma unsubscribeInner_other root root' s :
  consistent s -> root <> root' ->
  activeMessage (unsubscribeInner root s) root' = activeMessage s root'.
Proof.
  intros C Hne. unfold activeMessage, unsubscribeInner.
  destruct (innerSubscription s !! root) as [d|] eqn:E; simpl; [|done].
  rewrite lookup_delete_ne by done.
  destruct (innerSubscription s !! root') as [d'|] eqn:E'; [|done].
  rewrite lookup_delete_ne; [done|].
  intros ->. apply Hne. by eapply (held_distinct s C).
Qed.

Lemma unsubscribeInner_consistent root s :
  consistent s -> consistent (unsubscribeInner root s).
Proof.
  intros C. unfold unsubscribeInner.
  destruct (innerSubscription s !! root) as [d|] eqn:E; [|done].
  split; simpl.
  - intros r d' [_ H]%lookup_delete_Some. by eapply (held_fresh s C).
  - intros r d' [Hr H]%lookup_delete_Some. rewrite lookup_delete_ne.
    + by eapply (held_shown s C).
    + intros ->. apply Hr. by eapply (held_distinct s C).
  - intros d' text [Hd H]%lookup_delete_Some.
    destruct (shown_held s C d' text H) as [r Hr]. exists r.
    rewrite lookup_delete_ne; [done|]. intros ->. congruence.
  - intros r1 r2 d' [_ H1]%lookup_delete_Some [_ H2]%lookup_delete_Some.
    by eapply (held_distinct s C).
Qed.

Lemma subscribeInner_consistent root message s :
  consistent s -> innerSubscription s !! root = None ->
  consistent (subscribeInner root message s).
Proof.
  intros C Hnone. destruct message as [text|]; [|done].
  split; simpl.
  - intros r d [[_ <-]|[_ H]]%lookup_insert_Some; [lia|].
    pose proof (held_fresh s C r d H). lia.
  - intros r d [[_ <-]|[_ H]]%lookup_insert_Some.
    + rewrite lookup_insert_eq. by eexists.
    + pose proof (held_fresh s C r d H).
      rewrite lookup_insert_ne by lia. by eapply (held_shown s C).
  - intros d text' [[<- _]|[Hd H]]%lookup_insert_Some.
    + exists root. apply lookup_insert_eq.
    + destruct (shown_held s C d text' H) as [r Hr]. exists r.
      rewrite lookup_insert_ne; [done|]. intros ->. congruence.
  - intros r1 r2 d [[<- <-]|[Hr1 H1]]%lookup_insert_Some
                   [[<- Hd]|[Hr2 H2]]%lookup_insert_Some; try done.
    + pose proof (held_fresh s C r2 _ H2). lia.
    + pose proof (held_fresh s C r1 _ H1). lia.
    + by eapply (held_distinct s C).
Qed.

Lemma subscribeInner_active root message s root' :
  consistent s -> innerSubscription s !! root = None ->
  activeMessage (subscribeInner root message s) root'
  = if decide (root = root') then message else activeMessage s root'.
Proof.
  intros C Hnone. unfold activeMessage.
  destruct message as [text|]; simpl.
  - destruct (decide (root = root')) as [<-|Hne].
    + by rewrite !lookup_insert_eq.
    + rewrite lookup_insert_ne by done.
      destruct (innerSubscription s !! root') as [d|] eqn:E; [|done].
      pose proof (held_fresh s C root' d E).
      rewrite lookup_insert_ne by lia. done.
  - destruct (decide (root = root')) as [<-|Hne]; [|done]. by rewrite Hnone.
Qed.

Lemma next_consistent update s :
  consistent s -> consistent (next nuclideUriToDisplayString update s).
Proof.
  intros C. unfold next. apply subscribeInner_consistent.
  - by apply unsubscribeInner_consistent.
  - apply unsubscribeInner_lookup.
Qed.

(** After an update the root of the update shows the message of the
    update, if it has one, and every other root what it showed before. *)
Lemma next_active update s root :
  consistent s ->
  activeMessage (next nuclideUriToDisplayString update s) root
  = if decide (pathToRoot update = root)
    then busyMessage nuclideUriToDisplayString update
    else activeMessage s root.
Proof.
  intros C. unfold next.
  rewrite subscribeInner_active;
    [|by apply unsubscribeInner_consistent|apply unsubscribeInner_lookup].
  case_decide; [done|]. by apply unsubscribeInner_other.
Qed.

Lemma serverStatusUpdates_snoc statusUpdates update :
  serverStatusUpdatesToBusyMessages nuclideUriToDisplayString
    (statusUpdates ++ [update])
  = next nuclideUriToDisplayString update
      (serverStatusUpdatesToBusyMessages nuclideUriToDisplayString
         statusUpdates).
Proof. unfold serverStatusUpdatesToBusyMessages. by rewrite foldl_app. Qed.

Lemma serverStatusUpdates_consistent statusUpdates :
  consistent
    (serverStatusUpdatesToBusyMessages nuclideUriToDisplayString statusUpdates).
Proof.
  induction statusUpdates as [|update statusUpdates IH] using rev_ind.
  - apply consistent_subscribed.
  - rewrite serverStatusUpdates_snoc. by apply next_consistent.
Qed.

Lemma lastUpdate_snoc root statusUpdates update :
  lastUpdate root (statusUpdates ++ [update])
  = if decide (pathToRoot update = root) then Some update
    else lastUpdate root statusUpdates.
Proof.
  unfold lastUpdate. rewrite filter_app.
  destruct (decide (pathToRoot update = root)) as [H|H].
  - rewrite filter_cons_True by done. apply last_snoc.
  - rewrite filter_cons_False by done. by rewrite app_nil_r.
Qed.

(** The message shown for a root is the one of its last update. *)
Lemma serverStatusUpdates_active statusUpdates root :
  activeMessage
    (serverStatusUpdatesToBusyMessages nuclideUriToDisplayString statusUpdates)
    root
  = match lastUpdate root statusUpdates with
    | Some update => busyMessage nuclideUriToDisplayString update
    | None => None
    end.
Proof.
  induction statusUpdates as [|update statusUpdates IH] using rev_ind.
  - reflexivity.
  - rewrite serverStatusUpdates_snoc, lastUpdate_snoc,
      next_active by apply serverStatusUpdates_consistent.
    by case_decide.
Qed.

Lemma lastUpdate_root root statusUpdates update :
  lastUpdate root statusUpdates = Some update -> pathToRoot update = root.
Proof.
  unfold lastUpdate. intros H.
  assert (Hin : update ∈ filter (fun u => pathToRoot u = root) statusUpdates).
  { apply last_Some in H as [l ->]. set_solver. }
  by apply list_elem_of_filter in Hin as [? _].
Qed.

Lemma busyMessage_Some update text :
  busyMessage nuclideUriToDisplayString update = Some text
  <-> (status update = "init"
       /\ text = "Flow server is initializing ("
                 +:+ nuclideUriToDisplayString (pathToRoot update) +:+ ")")
      \/ (status update = "busy"
          /\ text = "Flow server is busy ("
                    +:+ nuclideUriToDisplayString (pathToRoot update) +:+ ")").
Proof.
  unfold busyMessage.
  destruct (String.eqb_spec (status update) "init") as [Hi|Hi];
    destruct (String.eqb_spec (status update) "busy") as [Hb|Hb];
    cbn [orb]; split.
  all: try (intros [= <-]; (by left) || (by right)).
  all: try (intros [[_ ->]|[? _]]; (reflexivity || congruence)).
  all: try (intros [[? _]|[_ ->]]; (reflexivity || congruence)).
  all: try discriminate.
  all: intros [[? _]|[? _]]; congruence.
Qed.

Lemma busyMessage_None update :
  status update <> "init" -> status update <> "busy" ->
  busyMessage nuclideUriToDisplayString update = None.
Proof.
  intros Hi Hb. unfold busyMessage.
  destruct (String.eqb_spec (status update) "init"); [done|].
  by destruct (String.eqb_spec (status update) "busy").
Qed.

(** C7. After any sequence of status updates, the message
    [Flow server is initializing (path)] or [Flow server is busy (path)] is
    shown for a root exactly if the last update of that root has the status
    [init] or [busy]; no message is shown that is not the one of a root; and
    an update with another status leaves its root without a message, and
    calls the busy-signal service only to dispose. *)
Theorem busy_message_follows_status
    (statusUpdates : list ServerStatusUpdate) (root : string) :
  let s :=
    serverStatusUpdatesToBusyMessages nuclideUriToDisplayString statusUpdates in
  let readablePath := nuclideUriToDisplayString root in
  (forall text,
     activeMessage s root = Some text
     <-> exists update,
           lastUpdate root statusUpdates = Some update
           /\ (status update = "init"
                /\ text = "Flow server is initializing (" +:+ readablePath
                          +:+ ")"
               \/ status update = "busy"
                  /\ text = "Flow server is busy (" +:+ readablePath +:+ ")"))
  /\ (forall disposable text,
        messages s !! disposable = Some text ->
        exists root',
          innerSubscription s !! root' = Some disposable
          /\ activeMessage s root' = Some text)
  /\ (forall update,
        status update <> "init" -> status update <> "busy" ->
        let s' := next nuclideUriToDisplayString update s in
        activeMessage s' (pathToRoot update) = None
        /\ exists disposed, calls s' = calls s ++ map dispose disposed).
Proof.
  intros s readablePath.
  pose proof (serverStatusUpdates_consistent statusUpdates) as C. fold s in C.
  split; [|split].
  - intros text. unfold s. rewrite serverStatusUpdates_active. split.
    + destruct (lastUpdate root statusUpdates) as [update|] eqn:E; [|done].
      intros Hm%busyMessage_Some. exists update. split; [done|].
      by rewrite (lastUpdate_root _ _ _ E) in Hm.
    + intros (update & E & Hm). rewrite E. apply busyMessage_Some.
      by rewrite (lastUpdate_root _ _ _ E).
  - intros d text Hd. destruct (shown_held s C d text Hd) as [root' Hr].
    exists root'. split; [done|]. unfold activeMessage. by rewrite Hr.
  - intros update Hi Hb s'. split.
    + unfold s'. rewrite next_active by done.
      rewrite decide_True by done. by apply busyMessage_None.
    + unfold s', next. rewrite busyMessage_None by done.
      unfold subscribeInner, unsubscribeInner.
      destruct (innerSubscription s !! pathToRoot update) as [d|].
      * by exists [d].
      * exists []. by rewrite app_nil_r.
Qed.

End FlowBusyFacts.

(** ** The component and the subscription on given inputs *)

Section Examples.
Import Js DisplayPaths ChangedFilesList FlowBusyMessages Samples.

Lemma insertSorted_Permutation {A} (compare : A -> A -> Z) x l :
  insertSorted compare x l ≡ₚ x :: l.
Proof.
  induction l as [|y l IH]; simpl; [done|].
  destruct (compare x y <? 0)%Z; [done|]. rewrite IH. apply perm_swap.
Qed.

Lemma insertionSort_Permutation A (compare : A -> A -> Z) (l : list A) :
  insertionSort A compare l ≡ₚ l.
Proof.
  unfold insertionSort.
  assert (H : forall sorted,
    foldl (fun sorted x => insertSorted compare x sorted) sorted l
    ≡ₚ sorted ++ l).
  { induction l as [|x l IH]; intros sorted; simpl.
    - by rewrite app_nil_r.
    - rewrite IH, insertSorted_Permutation. simpl. apply Permutation_middle. }
  by rewrite H.
Qed.

Example render_threeFiles :
  (fun node => map (fun file => (cfFilePath file, cfDisplayPath file))
                 (renderedFiles node))
    <$> match renderExample threeFiles ChangedFilesList.initialState with
        | Returns node => Some node
        | Throws _ => None
        end
  = Some [("/repo/a.js", Some "a.js"); ("/repo/b/c.js", Some "b/c.js");
          ("/repo/d/c.js", Some "d/c.js")].
Proof. vm_compute. reflexivity. Qed.

Lemma render_paginates_witness :
  (forall A (compare : A -> A -> Z) l, insertionSort A compare l ≡ₚ l)
  /\ exists node,
       renderExample threeFiles ChangedFilesList.initialState = Returns node
       /\ (length (renderedFiles node) <= 100 * 1)%nat
       /\ (is_Some (renderedShowMore node) <-> (100 * 1 < 3)%nat).
Proof.
  split; [exact insertionSort_Permutation|].
  destruct (render_paginates nat string posixSeparatorFor lastSegment
              (fun _ => Some "hg") compareStrings insertionSort
              threeFiles ChangedFilesList.initialState
              insertionSort_Permutation)
    as (node & Hrender & Hlength & _ & Hmore & _).
  exists node. split; [exact Hrender|]. split; [exact Hlength | exact Hmore].
Defined.

Lemma render_null_witness :
  exists element,
    renderExample
      {| checkedFiles := None; commandPrefix := "changed-files";
         enableFileExpansion := false; enableInlineActions := false;
         fileStatuses := []; generatedTypes := None;
         hideEmptyFolders := false; openInDiffViewOption := false;
         rootPath := "/repo"; selectedFile := None;
         shouldShowFolderName := true |}
      ChangedFilesList.initialState
    = Returns (Some element).
Proof.
  apply (render_null nat string posixSeparatorFor lastSegment
           (fun _ => Some "hg") compareStrings insertionSort).
  reflexivity.
Defined.

Example serverStatusUpdates_someUpdates :
  calls (serverStatusUpdatesToBusyMessages (fun uri => uri) someUpdates)
  = [ reportBusy "Flow server is initializing (/proj)" 0;
      reportBusy "Flow server is busy (/other)" 1;
      dispose 0 ].
Proof. vm_compute. reflexivity. Qed.

Lemma busy_message_follows_status_witness :
  activeMessage
    (serverStatusUpdatesToBusyMessages (fun uri => uri) someUpdates) "/other"
  = Some "Flow server is busy (/other)".
Proof.
  apply (proj1 (busy_message_follows_status (fun uri => uri) someUpdates
                  "/other")).
  exists {| pathToRoot := "/other"; status := "busy" |}.
  split; [reflexivity|]. right. split; reflexivity.
Defined.

End Examples.

(** ** [computeDisplayPaths]: more of what the loop does *)

Section DisplayPathExtras.
Import Js DisplayPaths.

Variable pathSeparatorFor : string -> ascii.

(** A round keeps the parts of every object, and leaves its depth or adds
    one to it. *)
Lemma round_depth filePaths st i dp :
  wfState pathSeparatorFor filePaths st ->
  displayPaths st !! i = Some dp ->
  exists dp', displayPaths (round st) !! i = Some dp'
    /\ (depth dp <= depth dp' <= S (depth dp))%nat.
Proof.
  intros W Hdp. destruct (decide (i ∈ toProcess st)) as [Hin|Hin].
  - pose proof (round_active _ _ _ _ _ W Hin Hdp) as R.
    destruct (isFinal _ dp); destruct R as [R _]; eexists; (split; [exact R|]);
      simpl; lia.
  - destruct (round_inactive _ _ _ _ W Hin) as [R _].
    exists dp. rewrite R. split; [done|lia].
Qed.

(** The depth of an object does not shrink from round to round. *)
Lemma rounds_depth filePaths r more i dp :
  displayPaths (Nat.iter r round (initialState pathSeparatorFor filePaths)) !! i
  = Some dp ->
  exists dp',
    displayPaths
      (Nat.iter (r + more) round (initialState pathSeparatorFor filePaths)) !! i
    = Some dp'
    /\ (depth dp <= depth dp')%nat.
Proof.
  intros Hdp. induction more as [|more (dp1 & Hdp1 & Hle)].
  - exists dp. by rewrite Nat.add_0_r.
  - replace (r + S more)%nat with (S (r + more)) by lia.
    rewrite Nat.iter_succ.
    destruct (round_depth filePaths _ i dp1
                (wf_rounds pathSeparatorFor filePaths (r + more)) Hdp1)
      as (dp2 & Hdp2 & Hle2).
    exists dp2. split; [done|lia].
Qed.

(** A larger cap does not end the loop earlier. *)
Lemma rounds_cap_le (init : LoopState) (cap cap' : Z) (n n' : nat) :
  cap <= cap' ->
  (forall k, (k < n)%nat -> continues cap (Nat.iter k round init)) ->
  ~ continues cap' (Nat.iter n' round init) ->
  (n <= n')%nat.
Proof.
  intros Hcap Hbefore Hafter.
  destruct (decide (n <= n')%nat) as [|Hlt]; [done|].
  exfalso. apply Hafter.
  destruct (Hbefore n' ltac:(lia)) as [Hd Hp]. split; [lia|done].
Qed.

(** The state at the end of the loop is wellformed and has the history of
    its depths, for paths with plain names and without slashes in their
    segments. *)
Lemma final_history filePaths maxDepth :
  plainNames pathSeparatorFor filePaths ->
  slashFree pathSeparatorFor filePaths ->
  history pathSeparatorFor filePaths
    (whileLoop maxDepth (initialState pathSeparatorFor filePaths)).
Proof.
  intros Hplain Hslash.
  assert (Hinv : wfState pathSeparatorFor filePaths
            (whileLoop maxDepth (initialState pathSeparatorFor filePaths))
          /\ history pathSeparatorFor filePaths
            (whileLoop maxDepth (initialState pathSeparatorFor filePaths))).
  { apply (whileLoop_invariant
      (fun s => wfState pathSeparatorFor filePaths s
                /\ history pathSeparatorFor filePaths s)).
    - split; [apply wf_initial | apply history_initial].
    - intros s [W H] _. split; [by apply wf_round | by apply history_round]. }
  by destruct Hinv.
Qed.

(** The last segment of a path is its suffix of one segment. *)
Lemma lastSegments_one p :
  exists b, last (segments pathSeparatorFor p) = Some b
    /\ lastSegments pathSeparatorFor 1 p = [b].
Proof.
  unfold lastSegments, segments.
  destruct (proj2 (last_is_Some (split (pathSeparatorFor p) p))
              (split_nonempty _ _)) as [b Hb].
  exists b. split; [done|]. apply last_Some in Hb as [l' ->].
  rewrite length_app. simpl.
  replace (length l' + 1 - 1)%nat with (length l') by lia.
  apply drop_app_length.
Qed.

(** X2. With a cap of 1 or less no round runs: every path is displayed by its
    last segment alone. *)
Theorem computeDisplayPaths_cap_one (filePaths : list string) (maxDepth : Z)
    (i : nat) (p : string) :
  maxDepth <= 1 ->
  filePaths !! i = Some p ->
  computeDisplayPaths pathSeparatorFor filePaths maxDepth !! i
  = last (segments pathSeparatorFor p).
Proof.
  intros Hcap Hp.
  destruct (loop_rounds_bound pathSeparatorFor filePaths maxDepth)
    as (n & Heq & Hn & _ & _).
  assert (n = 0%nat) as -> by lia. simpl in Heq.
  unfold computeDisplayPaths, finalDisplayPaths. rewrite Heq.
  unfold initialState; cbn [displayPaths].
  rewrite !list_lookup_fmap, Hp. cbn [fmap option_fmap option_map].
  rewrite (displayString_lastSegments pathSeparatorFor _ p) by done.
  destruct (lastSegments_one p) as (b & -> & Hone).
  cbn [initialDisplayPath depth]. by rewrite Hone.
Qed.

(** X3. A larger cap never shortens a display path: under the smaller cap the
    display path is made of the last [k] segments of the path, under the
    larger of the last [k'], with [k] at most [k']. *)
Theorem computeDisplayPaths_cap_monotone
    (filePaths : list string) (maxDepth maxDepth' : Z) (i : nat) (p : string) :
  maxDepth <= maxDepth' ->
  filePaths !! i = Some p ->
  exists k k' : nat,
    (1 <= k <= k')%nat
    /\ (k' <= length (segments pathSeparatorFor p))%nat
    /\ computeDisplayPaths pathSeparatorFor filePaths maxDepth !! i
       = Some (join (String (pathSeparatorFor p) EmptyString)
                 (lastSegments pathSeparatorFor k p))
    /\ computeDisplayPaths pathSeparatorFor filePaths maxDepth' !! i
       = Some (join (String (pathSeparatorFor p) EmptyString)
                 (lastSegments pathSeparatorFor k' p)).
Proof.
  intros Hcap Hp.
  destruct (finalDisplayPaths_lookup pathSeparatorFor filePaths maxDepth i p Hp)
    as (dp & Hdp & Hsep & Hparts & Hd).
  destruct (finalDisplayPaths_lookup pathSeparatorFor filePaths maxDepth' i p Hp)
    as (dp' & Hdp' & Hsep' & Hparts' & Hd').
  exists (depth dp), (depth dp').
  assert (Hle : (depth dp <= depth dp')%nat).
  { unfold finalDisplayPaths in Hdp, Hdp'.
    destruct (loop_rounds_bound pathSeparatorFor filePaths maxDepth)
      as (n & Heq & _ & Hbefore & _).
    destruct (loop_rounds_bound pathSeparatorFor filePaths maxDepth')
      as (n' & Heq' & _ & _ & Hafter').
    rewrite Heq in Hdp. rewrite Heq' in Hdp'.
    pose proof (rounds_cap_le _ _ _ _ _ Hcap Hbefore Hafter') as Hnn.
    destruct (rounds_depth filePaths n (n' - n) i dp Hdp) as (dp2 & Hdp2 & Hle).
    replace (n + (n' - n))%nat with n' in Hdp2 by lia.
    rewrite Hdp' in Hdp2. by injection Hdp2 as ->. }
  split; [lia|]. split; [lia|].
  unfold computeDisplayPaths. rewrite !list_lookup_fmap, Hdp, Hdp'.
  cbn [fmap option_fmap option_map].
  by rewrite !(displayString_lastSegments pathSeparatorFor _ p).
Qed.

(** X4. A path whose last segment is a property name of [Object.prototype] is
    never displayed by that segment alone, however unique it is, when the
    path has a second segment and the cap lets one round run. *)
Theorem computeDisplayPaths_inherited_extends
    (filePaths : list string) (maxDepth : Z) (i : nat) (p b : string) :
  2 <= maxDepth ->
  filePaths !! i = Some p ->
  last (segments pathSeparatorFor p) = Some b ->
  inherited b = true ->
  (2 <= length (segments pathSeparatorFor p))%nat ->
  exists k : nat,
    (2 <= k <= length (segments pathSeparatorFor p))%nat
    /\ computeDisplayPaths pathSeparatorFor filePaths maxDepth !! i
       = Some (join (String (pathSeparatorFor p) EmptyString)
                 (lastSegments pathSeparatorFor k p)).
Proof.
  intros Hcap Hp Hb Hinh Hlen.
  destruct (finalDisplayPaths_lookup pathSeparatorFor filePaths maxDepth i p Hp)
    as (dp & Hdp & Hsep & Hparts & Hd).
  exists (depth dp). split.
  - split; [|lia]. unfold finalDisplayPaths in Hdp.
    destruct (loop_rounds_bound pathSeparatorFor filePaths maxDepth)
      as (n & Heq & _ & _ & Hafter).
    rewrite Heq in Hdp.
    set (init := initialState pathSeparatorFor filePaths) in *.
    pose proof (wf_initial pathSeparatorFor filePaths) as W0. fold init in W0.
    assert (Hin0 : i ∈ toProcess init).
    { unfold init, initialState; cbn [toProcess]. rewrite length_map.
      apply elem_of_seq. apply lookup_lt_Some in Hp. lia. }
    assert (Hdp0 : displayPaths init !! i
                   = Some (initialDisplayPath pathSeparatorFor p)).
    { unfold init, initialState; cbn [displayPaths].
      by rewrite list_lookup_fmap, Hp. }
    destruct n as [|n].
    { exfalso. apply Hafter. simpl. split.
      - unfold init, initialState; cbn [currentDepth]. lia.
      - destruct (toProcess init); [by apply elem_of_nil in Hin0|simpl; lia]. }
    pose proof (round_active _ _ _ _ _ W0 Hin0 Hdp0) as R.
    assert (Hfin : isFinal (keysOf (displayPaths init) (toProcess init))
                     (initialDisplayPath pathSeparatorFor p) = false).
    { unfold isFinal, suffixKey, slice0, initialDisplayPath;
        cbn [depth pathParts].
      fold (segments pathSeparatorFor p).
      rewrite <- head_reverse in Hb.
      destruct (reverse (segments pathSeparatorFor p)) as [|x l] eqn:E;
        [done|].
      injection Hb as ->. cbn [take join]. rewrite take_0. cbn [join].
      rewrite Hinh, andb_false_r. cbn [orb].
      apply Nat.eqb_neq. rewrite <- E, length_reverse. lia. }
    rewrite Hfin in R. destruct R as [R _].
    destruct (rounds_depth filePaths 1 n i _ R) as (dp2 & Hdp2 & Hle).
    fold init in Hdp2. change (1 + n)%nat with (S n) in Hdp2.
    rewrite Hdp in Hdp2. injection Hdp2 as <-. simpl in Hle. lia.
  - unfold computeDisplayPaths. rewrite list_lookup_fmap, Hdp.
    cbn [fmap option_fmap option_map].
    by rewrite (displayString_lastSegments pathSeparatorFor _ p).
Qed.

(** X5. For distinct paths that are separated by slashes and have plain names,
    two display paths are equal only if both have been cut at the cap. *)
Theorem computeDisplayPaths_distinct_below_cap
    (filePaths : list string) (maxDepth : Z) (i j : nat) (p q : string) :
  NoDup filePaths ->
  Forall (fun path => pathSeparatorFor path = "/"%char) filePaths ->
  plainNames pathSeparatorFor filePaths ->
  i <> j ->
  filePaths !! i = Some p ->
  filePaths !! j = Some q ->
  computeDisplayPaths pathSeparatorFor filePaths maxDepth !! i
  = computeDisplayPaths pathSeparatorFor filePaths maxDepth !! j ->
  exists k : nat,
    Z.of_nat k = Z.max 1 maxDepth
    /\ computeDisplayPaths pathSeparatorFor filePaths maxDepth !! i
       = Some (join "/" (lastSegments pathSeparatorFor k p))
    /\ computeDisplayPaths pathSeparatorFor filePaths maxDepth !! j
       = Some (join "/" (lastSegments pathSeparatorFor k q)).
Proof.
  intros Hnd Hposix Hplain Hne Hp Hq Heq.
  pose proof (slashFree_posix pathSeparatorFor filePaths Hposix) as Hslash.
  assert (Hsepp : pathSeparatorFor p = "/"%char).
  { rewrite Forall_forall in Hposix. apply Hposix.
    by eapply list_elem_of_lookup_2. }
  assert (Hsepq : pathSeparatorFor q = "/"%char).
  { rewrite Forall_forall in Hposix. apply Hposix.
    by eapply list_elem_of_lookup_2. }
  assert (Hfreep : Forall (fun x => contains "/" x = false)
                     (segments pathSeparatorFor p)).
  { unfold slashFree in Hslash. rewrite Forall_forall in Hslash.
    apply Hslash. by eapply list_elem_of_lookup_2. }
  assert (Hfreeq : Forall (fun x => contains "/" x = false)
                     (segments pathSeparatorFor q)).
  { unfold slashFree in Hslash. rewrite Forall_forall in Hslash.
    apply Hslash. by eapply list_elem_of_lookup_2. }
  destruct (finalDisplayPaths_lookup pathSeparatorFor filePaths maxDepth i p Hp)
    as (dpi & Hdpi & Hsepi & Hpartsi & Hdi).
  destruct (finalDisplayPaths_lookup pathSeparatorFor filePaths maxDepth j q Hq)
    as (dpj & Hdpj & Hsepj & Hpartsj & Hdj).
  assert (Hresi : computeDisplayPaths pathSeparatorFor filePaths maxDepth !! i
    = Some (join "/" (lastSegments pathSeparatorFor (depth dpi) p))).
  { unfold computeDisplayPaths. rewrite list_lookup_fmap, Hdpi.
    cbn [fmap option_fmap option_map].
    by rewrite (displayString_lastSegments pathSeparatorFor _ p), Hsepp. }
  assert (Hresj : computeDisplayPaths pathSeparatorFor filePaths maxDepth !! j
    = Some (join "/" (lastSegments pathSeparatorFor (depth dpj) q))).
  { unfold computeDisplayPaths. rewrite list_lookup_fmap, Hdpj.
    cbn [fmap option_fmap option_map].
    by rewrite (displayString_lastSegments pathSeparatorFor _ q), Hsepq. }
  rewrite Hresi, Hresj in Heq. injection Heq as Heq.
  change "/" with (String "/"%char EmptyString) in Heq.
  apply join_inj in Heq.
  2,3: intros E; apply (f_equal length) in E;
       rewrite lastSegments_length in E by lia; simpl in E; lia.
  2,3: unfold lastSegments; by apply Forall_drop.
  assert (Hdd : depth dpi = depth dpj).
  { apply (f_equal length) in Heq.
    by rewrite !lastSegments_length in Heq by lia. }
  rewrite <- Hdd in Heq, Hresj.
  pose proof (wf_whileLoop pathSeparatorFor filePaths maxDepth) as W.
  destruct (final_history filePaths maxDepth Hplain Hslash) as [_ Hstop].
  destruct (final_currentDepth pathSeparatorFor filePaths maxDepth)
    as [_ Hcur].
  unfold finalDisplayPaths in Hdpi, Hdpj.
  set (final := whileLoop maxDepth (initialState pathSeparatorFor filePaths))
    in *.
  assert (Hcapped : forall i' dp', displayPaths final !! i' = Some dp' ->
            i' ∈ toProcess final -> Z.of_nat (depth dp') = Z.max 1 maxDepth).
  { intros i' dp' Hdp' Hin. destruct (wf_active _ _ _ W i' dp' Hdp' Hin) as [E _].
    rewrite E. apply Hcur. intros E'. rewrite E' in Hin.
    by apply elem_of_nil in Hin. }
  exists (depth dpi).
  destruct (decide (i ∈ toProcess final)) as [Hini|Hini];
    [by split; [eapply Hcapped|]|].
  destruct (decide (j ∈ toProcess final)) as [Hinj|Hinj];
    [split; [rewrite Hdd; by eapply Hcapped|done]|].
  exfalso.
  destruct (Hstop i dpi Hdpi Hini) as [Hu|Hwi].
  { apply Hu. exists j, p, q. do 3 (split; [done|]). split; [lia|done]. }
  destruct (Hstop j dpj Hdpj Hinj) as [Hu|Hwj].
  { apply Hu. exists i, q, p. do 3 (split; [done|]).
    split; [lia|]. by rewrite <- Hdd. }
  rewrite Hpartsi, length_reverse in Hwi.
  rewrite Hpartsj, length_reverse in Hwj.
  rewrite Hwi in Heq at 1. rewrite Hdd, Hwj in Heq.
  rewrite !lastSegments_all in Heq. unfold segments in Heq.
  rewrite Hsepp, Hsepq in Heq.
  assert (p = q).
  { rewrite <- (join_split "/" p), <- (join_split "/" q). by rewrite Heq. }
  subst q. apply Hne. by eapply NoDup_lookup.
Qed.

(** A suffix that is shared in a list is shared in every permutation of
    the list, wherever the path is there. *)
Lemma sharedSuffix_Permutation filePaths filePaths' k i j p :
  filePaths ≡ₚ filePaths' ->
  filePaths !! i = Some p ->
  filePaths' !! j = Some p ->
  sharedSuffix pathSeparatorFor filePaths k i ->
  sharedSuffix pathSeparatorFor filePaths' k j.
Proof.
  intros [_ (f & Hinj & Hf)]%Permutation_inj Hi Hj
    (m & p' & q & Hne & Hp' & Hq & Hlen & Heq).
  rewrite Hi in Hp'. injection Hp' as <-.
  destruct (decide (f m = j)) as [Hfm|Hfm].
  - assert (q = p) as ->.
    { rewrite Hf, Hfm, Hj in Hq. by injection Hq. }
    exists (f i), p, p. split.
    { intros E. rewrite <- Hfm in E. by apply Hinj in E. }
    split; [done|]. split; [by rewrite <- Hf|]. done.
  - exists (f m), p, q. split; [done|]. split; [done|].
    split; [by rewrite <- Hf|]. done.
Qed.

(** X19. The display path of a path does not depend on the order of the
    list: in a permutation of the list the path has the same display path,
    for paths with plain names and without slashes in their segments. *)
Theorem computeDisplayPaths_order_independent
    (filePaths filePaths' : list string) (maxDepth : Z) (i j : nat)
    (p : string) :
  filePaths ≡ₚ filePaths' ->
  plainNames pathSeparatorFor filePaths ->
  slashFree pathSeparatorFor filePaths ->
  filePaths !! i = Some p ->
  filePaths' !! j = Some p ->
  computeDisplayPaths pathSeparatorFor filePaths maxDepth !! i
  = computeDisplayPaths pathSeparatorFor filePaths' maxDepth !! j.
Proof.
  intros Hperm Hplain Hslash Hi Hj.
  assert (Hplain' : plainNames pathSeparatorFor filePaths').
  { unfold plainNames in *. by rewrite <- Hperm. }
  assert (Hslash' : slashFree pathSeparatorFor filePaths').
  { unfold slashFree in *. by rewrite <- Hperm. }
  destruct (shortest_suffix pathSeparatorFor filePaths maxDepth
              Hplain Hslash i p Hi)
    as (k & -> & Hk & Hcap & Hshort & Hstop).
  destruct (shortest_suffix pathSeparatorFor filePaths' maxDepth
              Hplain' Hslash' j p Hj)
    as (k' & -> & Hk' & Hcap' & Hshort' & Hstop').
  assert (k = k') as ->; [|done].
  destruct (lt_eq_lt_dec k k') as [[Hlt|]|Hlt]; [|done|]; exfalso.
  - destruct Hstop as [Hu|[|]]; [|lia..]. apply Hu.
    apply (sharedSuffix_Permutation filePaths' filePaths k j i p);
      [done..|]. apply Hshort'. lia.
  - destruct Hstop' as [Hu|[|]]; [|lia..]. apply Hu.
    apply (sharedSuffix_Permutation filePaths filePaths' k' i j p);
      [done..|]. apply Hshort. lia.
Qed.

End DisplayPathExtras.

(** ** [ChangedFilesList.render]: the files it shows *)

Section RenderExtras.
Import Js DisplayPaths ChangedFilesList.

Variable FileChangeStatusValue : Type.
Variable GeneratedFileType : Type.
Variable pathSeparatorFor : string -> ascii.
Variable basename : string -> string.
Variable repositoryForPath : string -> option string.
Variable localeCompare : string -> string -> Z.
Variable Array_sort : forall A : Type, (A -> A -> Z) -> list A -> list A.

Let Props := (Props FileChangeStatusValue GeneratedFileType).
Let render :=
  (render FileChangeStatusValue GeneratedFileType pathSeparatorFor basename
     repositoryForPath localeCompare Array_sort).

Lemma mapWithIndex_lookup {A B} (f : A -> nat -> Outcome B)
    (l : list A) (index : nat) (ys : list B) :
  mapWithIndex f index l = Returns ys ->
  forall k y, ys !! k = Some y ->
  exists x, l !! k = Some x /\ f x (index + k)%nat = Returns y.
Proof.
  revert index ys. induction l as [|x l IH]; intros index ys; simpl.
  - intros [= <-] k y Hk. by rewrite lookup_nil in Hk.
  - destruct (f x index) as [y0|e] eqn:Ef; [|done].
    destruct (mapWithIndex f (S index) l) as [ys0|e] eqn:Em; [|done].
    intros [= <-] [|k] y Hk.
    + injection Hk as <-. exists x. by rewrite Nat.add_0_r.
    + destruct (IH (S index) ys0 Em k y Hk) as (x' & Hx' & Hf).
      exists x'. split; [done|].
      by replace (index + S k)%nat with (S index + k)%nat by lia.
Qed.

(** Every [ChangedFile] that [render] makes comes from one of the first
    [filesToShow] keys of [fileStatuses], at some index, and has the path,
    the status of the path in the map, and the display path at that index. *)
Lemma render_file (props : Props) (state : State) node file :
  (forall A cmp l, Array_sort A cmp l ≡ₚ l) ->
  render props state = Returns node ->
  file ∈ renderedFiles node ->
  let filePaths :=
    take (100 * visiblePagesCount state) (Map_keys (fileStatuses props)) in
  exists index path,
    filePaths !! index = Some path
    /\ cfFilePath file = path
    /\ cfKey _ _ file = path
    /\ Map_get (fileStatuses props) path = Some (cfFileStatus file)
    /\ cfDisplayPath file
       = computeDisplayPaths pathSeparatorFor filePaths defaultMaxDepth
           !! index
    /\ cfIsSelected _ _ file = bool_decide (selectedFile props = Some path)
    /\ cfIsChecked _ _ file
       = (fun checked => bool_decide (path ∈ checked)) <$> checkedFiles props.
Proof.
  intros Hsort Hrender Hfile filePaths. revert Hrender.
  unfold render, ChangedFilesList.render.
  change (FILE_CHANGES_INITIAL_PAGE_SIZE * visiblePagesCount state)%nat
    with (100 * visiblePagesCount state)%nat.
  unfold slice0. fold filePaths.
  destruct ((Map_size (fileStatuses props) =? 0)%nat
            && hideEmptyFolders props).
  { intros [= <-]. by apply elem_of_nil in Hfile. }
  match goal with
  | |- context [mapWithIndex ?f 0%nat filePaths] =>
      destruct (mapWithIndex f 0%nat filePaths) as [fileChanges|e] eqn:Hmap;
        [pose proof (mapWithIndex_lookup f filePaths 0 fileChanges Hmap)
           as Hlook|done]
  end.
  intros [= <-]. cbn [renderedFiles changedFiles] in Hfile.
  apply list_elem_of_fmap in Hfile as (change & -> & Hchange).
  rewrite Hsort in Hchange.
  apply list_elem_of_lookup in Hchange as [index Hindex].
  destruct (Hlook index change Hindex) as (path & Hpath & Hf).
  exists index, path. split; [done|].
  cbn beta in Hf.
  destruct (Map_get (fileStatuses props) path) as [v|] eqn:Hget; [|done].
  cbn [nullthrows] in Hf. injection Hf as <-.
  cbn [cfFilePath cfKey cfFileStatus cfDisplayPath cfIsSelected cfIsChecked
       filePath fileStatus displayPath Nat.add].
  repeat (split; [done|]). by destruct (checkedFiles props).
Qed.

(** X6. The status that a rendered file shows is the one that [fileStatuses]
    has for its path; its React key is its path; it is selected exactly if
    its path is [selectedFile], and checked exactly if [checkedFiles] has
    its path. *)
Theorem render_file_status (props : Props) (state : State) node file :
  (forall A cmp l, Array_sort A cmp l ≡ₚ l) ->
  render props state = Returns node ->
  file ∈ renderedFiles node ->
  cfFilePath file ∈ Map_keys (fileStatuses props)
  /\ Map_get (fileStatuses props) (cfFilePath file) = Some (cfFileStatus file)
  /\ cfKey _ _ file = cfFilePath file
  /\ (cfIsSelected _ _ file = true
      <-> selectedFile props = Some (cfFilePath file))
  /\ (forall checked, checkedFiles props = Some checked ->
        cfIsChecked _ _ file = Some (bool_decide (cfFilePath file ∈ checked)))
  /\ (checkedFiles props = None -> cfIsChecked _ _ file = None).
Proof.
  intros Hsort Hrender Hfile.
  destruct (render_file props state node file Hsort Hrender Hfile)
    as (index & path & Hpath & -> & Hkey & Hstatus & _ & Hsel & Hcheck).
  split.
  { apply (subseteq_take (100 * visiblePagesCount state)).
    by eapply list_elem_of_lookup_2. }
  split; [done|]. split; [done|]. split.
  { rewrite Hsel. apply bool_decide_eq_true. }
  split.
  - intros checked Hc. by rewrite Hcheck, Hc.
  - intros Hc. by rewrite Hcheck, Hc.
Qed.

(** X7. Every rendered file has a display path: between one and five of the
    last segments of its own path, joined with the separator of the path. *)
Theorem render_file_displayPath (props : Props) (state : State) node file :
  (forall A cmp l, Array_sort A cmp l ≡ₚ l) ->
  render props state = Returns node ->
  file ∈ renderedFiles node ->
  exists k : nat,
    (1 <= k <= 5)%nat
    /\ (k <= length (segments pathSeparatorFor (cfFilePath file)))%nat
    /\ cfDisplayPath file
       = Some (join (String (pathSeparatorFor (cfFilePath file)) EmptyString)
                 (lastSegments pathSeparatorFor k (cfFilePath file))).
Proof.
  intros Hsort Hrender Hfile.
  destruct (render_file props state node file Hsort Hrender Hfile)
    as (index & path & Hpath & -> & _ & _ & Hdisplay & _).
  destruct (finalDisplayPaths_lookup pathSeparatorFor _ defaultMaxDepth
              index path Hpath) as (dp & Hdp & Hsep & Hparts & Hd).
  pose proof (final_depth_le pathSeparatorFor _ defaultMaxDepth index dp Hdp)
    as Hle.
  exists (depth dp). unfold defaultMaxDepth in Hle.
  split; [lia|]. split; [lia|].
  rewrite Hdisplay. unfold computeDisplayPaths.
  rewrite list_lookup_fmap, Hdp. cbn [fmap option_fmap option_map].
  by rewrite (displayString_lastSegments pathSeparatorFor _ path).
Qed.

(** The files that [render] shows are the first 100 times
    [visiblePagesCount] keys of [fileStatuses], in some order. *)
Lemma render_paths (props : Props) (state : State) node :
  (forall A cmp l, Array_sort A cmp l ≡ₚ l) ->
  render props state = Returns node ->
  map cfFilePath (renderedFiles node)
  ≡ₚ take (100 * visiblePagesCount state) (Map_keys (fileStatuses props))
  /\ (renderedShowMore node = None ->
      (Map_size (fileStatuses props) <= 100 * visiblePagesCount state)%nat).
Proof.
  intros Hsort Hrender.
  pose proof (render_cases FileChangeStatusValue GeneratedFileType
                pathSeparatorFor basename repositoryForPath localeCompare
                Array_sort props state) as Hcases.
  cbv zeta in Hcases. fold render in Hcases.
  set (filesToShow := (100 * visiblePagesCount state)%nat) in *.
  destruct Hcases
    as [(Hsize & Hhide & Hnull)
       |(Hnot & element & changes & Hsome & Hpaths & Hfiles & Hmore)].
  - rewrite Hnull in Hrender. injection Hrender as <-.
    rewrite Hsize. unfold Map_size in Hsize.
    apply length_zero_iff_nil in Hsize. unfold Map_keys. rewrite Hsize.
    cbn [renderedFiles map]. rewrite take_nil. split; [done|lia].
  - rewrite Hsome in Hrender. injection Hrender as <-.
    cbn [renderedFiles renderedShowMore]. split.
    + rewrite Hfiles, <- Hpaths. apply Permutation_map, Hsort.
    + rewrite Hmore.
      by destruct (Nat.ltb_spec filesToShow (Map_size (fileStatuses props))).
Qed.

Lemma render_length (props : Props) (state : State) node :
  (forall A cmp l, Array_sort A cmp l ≡ₚ l) ->
  render props state = Returns node ->
  length (renderedFiles node)
  = min (100 * visiblePagesCount state) (Map_size (fileStatuses props)).
Proof.
  intros Hsort Hrender.
  destruct (render_paths props state node Hsort Hrender) as [Hperm _].
  rewrite <- (length_map cfFilePath), Hperm, length_take.
  unfold Map_keys, Map_size. by rewrite length_map.
Qed.

(** X8. [render] shows as many files as [fileStatuses] has, up to 100 times
    [visiblePagesCount]; without the icon for more files it shows every
    file of [fileStatuses]. *)
Theorem render_count (props : Props) (state : State) node :
  (forall A cmp l, Array_sort A cmp l ≡ₚ l) ->
  render props state = Returns node ->
  length (renderedFiles node)
  = min (100 * visiblePagesCount state) (Map_size (fileStatuses props))
  /\ (renderedShowMore node = None ->
      map cfFilePath (renderedFiles node) ≡ₚ Map_keys (fileStatuses props)).
Proof.
  intros Hsort Hrender. split; [by apply render_length|].
  destruct (render_paths props state node Hsort Hrender) as [Hperm Hall].
  intros Hnone. rewrite Hperm. rewrite take_ge; [done|].
  specialize (Hall Hnone). unfold Map_keys, Map_size in *.
  by rewrite length_map.
Qed.

(** X9. A click on the icon for more files shows at least one file more, and
    at most 100 more. *)
Theorem render_click_shows_more (props : Props) (state : State) node more :
  (forall A cmp l, Array_sort A cmp l ≡ₚ l) ->
  render props state = Returns node ->
  renderedShowMore node = Some more ->
  exists node',
    render props (onClick more state) = Returns node'
    /\ (length (renderedFiles node) < length (renderedFiles node')
        <= length (renderedFiles node) + 100)%nat.
Proof.
  intros Hsort Hrender Hmore.
  pose proof (render_cases FileChangeStatusValue GeneratedFileType
                pathSeparatorFor basename repositoryForPath localeCompare
                Array_sort props state) as Hcases.
  cbv zeta in Hcases. fold render in Hcases.
  set (filesToShow := (100 * visiblePagesCount state)%nat) in *.
  destruct Hcases
    as [(Hsize & Hhide & Hnull)
       |(Hnot & element & changes & Hsome & Hpaths & Hfiles & Hicon)].
  { rewrite Hnull in Hrender. injection Hrender as <-. done. }
  rewrite Hsome in Hrender. injection Hrender as <-.
  cbn [renderedShowMore] in Hmore. rewrite Hicon in Hmore.
  destruct (Nat.ltb_spec filesToShow (Map_size (fileStatuses props)))
    as [Hlt|]; [|done].
  injection Hmore as <-. cbn [onClick].
  set (state' := {| isCollapsed := isCollapsed state;
                    visiblePagesCount := (visiblePagesCount state + 1)%nat |}).
  pose proof (render_cases FileChangeStatusValue GeneratedFileType
                pathSeparatorFor basename repositoryForPath localeCompare
                Array_sort props state') as Hcases'.
  cbv zeta in Hcases'. fold render in Hcases'.
  destruct Hcases' as [(Hsize & _ & _)|(_ & element' & _ & Hsome' & _)];
    [lia|].
  exists (Some element'). split; [done|].
  pose proof (render_length props state (Some element) Hsort Hsome) as Hc.
  pose proof (render_length props state' (Some element') Hsort Hsome') as Hc'.
  rewrite Hc, Hc'. fold filesToShow. unfold state'; cbn [visiblePagesCount].
  lia.
Qed.

(** X10. When the keys of [fileStatuses] are distinct, as those of a [Map] are,
    so are the React keys of the rendered files. *)
Theorem render_keys_distinct (props : Props) (state : State) node :
  (forall A cmp l, Array_sort A cmp l ≡ₚ l) ->
  NoDup (Map_keys (fileStatuses props)) ->
  render props state = Returns node ->
  NoDup (map (cfKey _ _) (renderedFiles node)).
Proof.
  intros Hsort Hnd Hrender.
  pose proof (render_cases FileChangeStatusValue GeneratedFileType
                pathSeparatorFor basename repositoryForPath localeCompare
                Array_sort props state) as Hcases.
  cbv zeta in Hcases. fold render in Hcases.
  destruct Hcases
    as [(Hsize & Hhide & Hnull)
       |(Hnot & element & changes & Hsome & Hpaths & Hfiles & Hmore)].
  - rewrite Hnull in Hrender. injection Hrender as <-. constructor.
  - assert (Hkeys : map (cfKey _ _) (renderedFiles node)
                    = map cfFilePath (renderedFiles node)).
    { apply map_ext_in. intros file Hin%list_elem_of_In.
      by destruct (render_file props state node file Hsort Hrender Hin)
        as (index & path & _ & -> & -> & _). }
    rewrite Hkeys. rewrite Hsome in Hrender. injection Hrender as <-.
    cbn [renderedFiles].
    assert (Hperm : map cfFilePath (changedFiles element)
                    ≡ₚ take (100 * visiblePagesCount state)
                         (Map_keys (fileStatuses props))).
    { rewrite Hfiles, <- Hpaths. apply Permutation_map, Hsort. }
    rewrite Hperm. eapply sublist_NoDup; [done|apply sublist_take].
Qed.

End RenderExtras.

(** ** More on the remote projects service *)

Section RemoteProjectsExtras.
Import Js RemoteProjectsService.

Variable RemoteConnection : Type.

(** X11. When [RemoteConnection.reconnect] rejects, [createRemoteConnection]
    rejects with the same error and opens no dialog, whatever
    [promptReconnectOnFailure] says. The connection dialog is opened exactly
    when the reconnection gives [null] and [promptReconnectOnFailure] is not
    [false], and then with the saved host and path. The reconnection is
    always the first call, and at most one call follows it. *)
Theorem createRemoteConnection_dialog_only_after_null
    (answer : Call -> Outcome (option RemoteConnection))
    (config : SerializableRemoteConnectionConfiguration) :
  let prompt := default true (promptReconnectOnFailure config) in
  let reconnect :=
    RemoteConnection_reconnect (host config) (path config)
      (displayTitle config) prompt in
  let result := run answer (createRemoteConnection config) in
  (forall e, answer reconnect = Throws e -> result = ([reconnect], Throws e))
  /\ (forall options,
        openConnectionDialog options ∈ result.1 <->
        options = {| initialServer := host config; initialCwd := path config |}
        /\ answer reconnect = Returns None
        /\ promptReconnectOnFailure config <> Some false)
  /\ (exists rest, result.1 = reconnect :: rest /\ (length rest <= 1)%nat).
Proof.
  intros prompt reconnect result.
  pose proof (run_createRemoteConnection RemoteConnection answer config)
    as Hrun.
  cbv zeta in Hrun. fold prompt reconnect result in Hrun.
  assert (Hprompt : prompt = true <->
                    promptReconnectOnFailure config <> Some false).
  { subst prompt. by destruct (promptReconnectOnFailure config) as [[|]|]. }
  split; [|split].
  - intros e He. by rewrite Hrun, He.
  - intros options. rewrite Hrun.
    destruct (answer reconnect) as [[connection|]|e]; cbn [fst].
    + rewrite list_elem_of_singleton. split; [done|]. by intros (_ & ? & _).
    + destruct prompt; cbn [fst].
      * rewrite !elem_of_cons, elem_of_nil. split.
        -- intros [?|[[= ->]|[]]]; [done|]. split; [done|]. split; [done|].
           by apply Hprompt.
        -- intros (-> & _ & _). right. by left.
      * rewrite list_elem_of_singleton. split; [done|].
        intros (_ & _ & Hp). apply Hprompt in Hp. done.
    + rewrite list_elem_of_singleton. split; [done|]. by intros (_ & ? & _).
  - rewrite Hrun.
    destruct (answer reconnect) as [[connection|]|e]; cbn [fst].
    2: destruct prompt; cbn [fst].
    all: eexists; split; [reflexivity|cbn [length]; lia].
Qed.

End RemoteProjectsExtras.

(** ** The activation of the Flow package *)

Section FlowActivationFacts.
Import FlowActivation.

Lemma runFrom_snoc this events event :
  runFrom this (events ++ [event])
  = let (next, effects) := handle event (runFrom this events).1 in
    (next, (runFrom this events).2 ++ effects).
Proof. unfold runFrom. rewrite foldl_app. cbn [foldl]. done. Qed.

Lemma runFrom_disposed events :
  runFrom {| _disposed := true; _activationPromise := None |} events
  = ({| _disposed := true; _activationPromise := None |}, []).
Proof.
  induction events as [|event events IH] using rev_ind; [done|].
  rewrite runFrom_snoc, IH. by destruct event.
Qed.

Lemma runFrom_app this events events' :
  runFrom this (events ++ events')
  = let first := runFrom this events in
    let second := runFrom first.1 events' in
    (second.1, first.2 ++ second.2).
Proof.
  induction events' as [|event events' IH] using rev_ind.
  - rewrite app_nil_r. cbn. rewrite app_nil_r. by destruct (runFrom this events).
  - cbv zeta in IH |- *.
    rewrite app_assoc, runFrom_snoc, IH, runFrom_snoc. cbn [fst snd].
    destruct (handle event _) as [next effects]. cbn [fst snd].
    by rewrite app_assoc.
Qed.

(** X12. Once an [Activation] is disposed of it is inert: whatever happens
    afterwards, a late callback of the gatekeeper or another [dispose], sets
    no field and has no effect. In particular nothing is activated after
    [dispose], and no activation is disposed of twice. *)
Theorem activation_inert_after_dispose this before after :
  runFrom this (before ++ Disposed :: after)
  = runFrom this (before ++ [Disposed]).
Proof.
  change (Disposed :: after) with ([Disposed] ++ after).
  rewrite app_assoc, (runFrom_app this (before ++ [Disposed]) after).
  rewrite runFrom_snoc. cbn [handle dispose fst snd].
  by rewrite runFrom_disposed, app_nil_r.
Qed.

(** X13. From construction on, whatever the events: [_disposed] is set exactly
    when [dispose] was called; there are no more activations than callbacks
    of the gatekeeper; until [dispose] the activation kept is the last one
    started and none is disposed of; after [dispose] none is kept, and the
    effects are the activations followed by the disposal of the last one
    started, if any was. An activation that is not the last one started is
    never disposed of. *)
Theorem activation_disposes_last_started events :
  let result := runFrom constructed events in
  let started := omap activationOf result.2 in
  (_disposed result.1 = true <-> Disposed ∈ events)
  /\ (length started
      <= length (filter isGKInitialized events))%nat
  /\ (if _disposed result.1
      then _activationPromise result.1 = None
           /\ result.2
              = filter isActivate result.2
                ++ match last started with
                   | Some activation => [disposeActivation activation]
                   | None => []
                   end
      else _activationPromise result.1 = last started
           /\ filter isActivate result.2 = result.2).
Proof.
  induction events as [|event events IH] using rev_ind.
  { cbn. split; [|done]. split; [done|]. by intros ?%elem_of_nil. }
  cbv zeta in IH |- *. rewrite runFrom_snoc.
  destruct (runFrom constructed events) as [[disposed promise] log].
  cbn [fst snd _disposed _activationPromise] in IH |- *.
  destruct IH as (Hdisposed & Hcount & Hlog).
  rewrite filter_app, length_app, elem_of_app, list_elem_of_singleton.
  destruct event as [lspEnabled|].
  - (* a callback of the gatekeeper *)
    assert (Hin : Disposed ∈ events ∨ Disposed = GKInitialized lspEnabled
                  <-> Disposed ∈ events) by (split; [by intros [?|?]|tauto]).
    rewrite Hin. rewrite filter_cons_True, filter_nil by done.
    destruct disposed.
    { cbn [handle _onGKInitialized _disposed _activationPromise length
           fst snd].
      rewrite app_nil_r. split; [done|]. split; [lia|done]. }
    destruct Hlog as [Hpromise Hfilter].
    destruct lspEnabled;
      cbn [handle _onGKInitialized _disposed _activationPromise length
           fst snd].
    all: rewrite omap_app, filter_app, length_app, Hfilter.
    all: change (omap activationOf [activateLsp]) with [ActivatedLsp].
    all: change (omap activationOf [activateLegacy]) with [ActivatedLegacy].
    all: rewrite last_snoc.
    all: split; [done|]; split; [simpl; lia|done].
  - (* [dispose] *)
    rewrite filter_cons_False by exact id. rewrite filter_nil.
    cbn [handle dispose _disposed _activationPromise length fst snd].
    split; [split; [by right|done]|].
    destruct disposed.
    + destruct Hlog as [-> Hlog]. rewrite !app_nil_r.
      split; [lia|]. by split.
    + destruct Hlog as [-> Hfilter].
      destruct (last (omap activationOf log)) as [activation|] eqn:Hlast.
      * rewrite omap_app, filter_app, Hfilter.
        change (omap activationOf [disposeActivation activation]) with
          (@nil Activated).
        rewrite filter_cons_False by exact id.
        rewrite filter_nil, !app_nil_r, Hlast. split; [lia|done].
      * rewrite !app_nil_r, Hfilter, Hlast, app_nil_r. split; [lia|done].
Qed.

End FlowActivationFacts.

(** ** The command that finds indirect references *)

Section FindIndirectReferencesFacts.
Import Js FindIndirectReferences.

Context {TextEditor Cursor MouseEvent Point FileVersion : Type}.
Context {FlowLanguageService References : Type}.

Let Workspace :=
  Workspace TextEditor Cursor MouseEvent Point FileVersion
    FlowLanguageService References.

(** X14. References are only shown when every guard of the command was passed:
    there is an active editor with a path and exactly one cursor, a Flow
    service for the path, and a version of the file; and they are the
    references that the service gave for the position of the last mouse
    event, if there is one, and of the cursor otherwise. *)
Theorem findIndirectReferences_results_pass_guards (workspace : Workspace)
    (lastMouseEvent : option MouseEvent) (busySignalService : bool)
    (references : References) :
  viewResults references
    ∈ (findIndirectReferences workspace lastMouseEvent busySignalService).1.2 ->
  exists editor path cursor getForUri flowLS fileVersion,
    getActiveTextEditor workspace = Some editor
    /\ getPath workspace editor = Some path
    /\ getCursors workspace editor = [cursor]
    /\ connectionCache workspace = Some getForUri
    /\ getForUri path = Some flowLS
    /\ getFileVersionOfEditor workspace editor = Some fileVersion
    /\ customFindReferences workspace flowLS fileVersion
         match lastMouseEvent with
         | Some event => bufferPositionForMouseEvent workspace event editor
         | None => getBufferPosition workspace cursor
         end true true
       = Some (data references).
Proof.
  unfold findIndirectReferences.
  destruct (getActiveTextEditor workspace) as [editor|] eqn:Heditor;
    [|by intros ?%elem_of_nil].
  destruct (getPath workspace editor) as [path|] eqn:Hpath;
    [|by intros ?%elem_of_nil].
  destruct (getCursors workspace editor) as [|cursor [|]] eqn:Hcursors;
    [by intros ?%elem_of_nil| |by intros ?%elem_of_nil].
  destruct (connectionCache workspace) as [getForUri|] eqn:Hcache;
    [|by intros ?%elem_of_nil].
  destruct (getForUri path) as [flowLS|] eqn:HflowLS;
    [|by intros ?%elem_of_nil].
  destruct (getFileVersionOfEditor workspace editor) as [fileVersion|]
    eqn:Hversion; [|by intros ?%elem_of_nil].
  cbn [fst snd]. intros Hin.
  exists editor, path, cursor, getForUri, flowLS, fileVersion.
  do 6 (split; [done|]).
  apply elem_of_app in Hin as [Hin|Hin].
  { destruct busySignalService.
    - by apply list_elem_of_singleton in Hin.
    - by apply elem_of_nil in Hin. }
  apply list_elem_of_singleton in Hin.
  destruct (customFindReferences _ _ _ _ _ _) as [[found|message]|];
    [|done..].
  by injection Hin as ->.
Qed.

(** X15. The command tells the user at most one thing: that there are no
    results, the references, or a warning. It tells exactly one when it
    settles normally past the guards, and none otherwise. It reports as
    busy at most once, only when there is a busy-signal service, and then it
    also tells the user the outcome. It rejects only when there is no
    connection cache. *)
Theorem findIndirectReferences_one_outcome (workspace : Workspace)
    (lastMouseEvent : option MouseEvent) (busySignalService : bool) :
  let result :=
    findIndirectReferences workspace lastMouseEvent busySignalService in
  let actions := result.1.2 in
  (exists outcome,
     isOutcome outcome = true
     /\ (actions = [] \/ actions = [outcome]
         \/ busySignalService = true
            /\ actions
               = [reportBusyWhile
                    "Running Flow find-indirect-references (this may take a while)"
                    true "computer"; outcome]))
  /\ (result.2 = Returns tt
      \/ connectionCache workspace = None /\ actions = []).
Proof.
  intros result actions. subst actions result.
  unfold findIndirectReferences.
  destruct (getActiveTextEditor workspace) as [editor|].
  2: { split; [|by left]. exists (addInfo ""). split; [done|]. by left. }
  destruct (getPath workspace editor) as [path|].
  2: { split; [|by left]. exists (addInfo ""). split; [done|]. by left. }
  destruct (getCursors workspace editor) as [|cursor [|]].
  1, 3: split; [|by left]; exists (addInfo ""); split; [done|]; by left.
  destruct (connectionCache workspace) as [getForUri|].
  2: { split; [|by right]. exists (addInfo ""). split; [done|]. by left. }
  destruct (getForUri path) as [flowLS|].
  2: { split; [|by left]. exists (addInfo ""). split; [done|]. by left. }
  destruct (getFileVersionOfEditor workspace editor) as [fileVersion|].
  2: { split; [|by left]. exists (addInfo ""). split; [done|]. by left. }
  cbn [fst snd]. split; [|by left].
  destruct busySignalService; cbn [app]; eexists.
  all: split; [|first [right; left; reflexivity
                      |right; right; split; [done|reflexivity]]].
  all: by destruct (customFindReferences _ _ _ _ _ _) as [[found|message]|].
Qed.

(** X16. The command forgets the last mouse event exactly when there is an
    active editor with a path and exactly one cursor. Otherwise it does
    nothing at all and keeps the event, so that the next run of the command
    takes its position from that event. *)
Theorem findIndirectReferences_forgets_mouse_event (workspace : Workspace)
    (lastMouseEvent : option MouseEvent) (busySignalService : bool) :
  let result :=
    findIndirectReferences workspace lastMouseEvent busySignalService in
  let ready :=
    exists editor path cursor,
      getActiveTextEditor workspace = Some editor
      /\ getPath workspace editor = Some path
      /\ getCursors workspace editor = [cursor] in
  (ready /\ result.1.1 = None)
  \/ (~ ready /\ result = (lastMouseEvent, [], Returns tt)).
Proof.
  intros result ready. subst result ready.
  unfold findIndirectReferences.
  destruct (getActiveTextEditor workspace) as [editor|].
  2: { right. split; [|done]. by intros (? & ? & ? & ? & _). }
  destruct (getPath workspace editor) as [path|] eqn:Hpath.
  2: { right. split; [|done]. intros (? & ? & ? & [= <-] & ? & _).
       congruence. }
  destruct (getCursors workspace editor) as [|cursor [|]] eqn:Hcursors.
  1, 3: right; split; [|done]; intros (? & ? & ? & [= <-] & _ & ?);
    congruence.
  left. split; [by exists editor, path, cursor|].
  destruct (connectionCache workspace) as [getForUri|]; [|done].
  destruct (getForUri path) as [flowLS|]; [|done].
  by destruct (getFileVersionOfEditor workspace editor).
Qed.

End FindIndirectReferencesFacts.

(** ** The calls of the busy-signal service *)

Section FlowBusyLogFacts.
Import Js FlowBusyMessages FlowBusyLog.

Variable nuclideUriToDisplayString : string -> string.

Lemma readLog_snoc log call :
  readLog (log ++ [call]) = readCall (readLog log) call.
Proof. unfold readLog. by rewrite foldl_app. Qed.

Lemma unsubscribeInner_disciplined root s :
  consistent s -> disciplined s -> disciplined (unsubscribeInner root s).
Proof.
  intros C (live & used & Hlog & Hlive & Hused). unfold unsubscribeInner.
  destruct (innerSubscription s !! root) as [d0|] eqn:E;
    [|by exists live, used].
  exists (live ∖ {[d0]}), used. cbn [calls innerSubscription nextDisposable].
  split; [|split; [|done]].
  - rewrite readLog_snoc, Hlog. cbn [readCall].
    rewrite decide_True; [done|]. apply Hlive. by exists root.
  - intros d. rewrite elem_of_difference, elem_of_singleton, Hlive. split.
    + intros [[r Hr] Hne]. exists r. rewrite lookup_delete_ne; [done|].
      intros ->. congruence.
    + intros [r [Hr H]%lookup_delete_Some]. split; [by exists r|].
      intros ->. apply Hr. by eapply (held_distinct s C).
Qed.

Lemma subscribeInner_disciplined root message s :
  innerSubscription s !! root = None ->
  disciplined s -> disciplined (subscribeInner root message s).
Proof.
  intros Hnone (live & used & Hlog & Hlive & Hused).
  destruct message as [text|]; [|by exists live, used].
  exists ({[nextDisposable s]} ∪ live), ({[nextDisposable s]} ∪ used).
  cbn [subscribeInner calls innerSubscription nextDisposable].
  split; [|split].
  - rewrite readLog_snoc, Hlog. cbn [readCall].
    rewrite decide_False; [done|]. intros H%Hused. lia.
  - intros d. rewrite elem_of_union, elem_of_singleton, Hlive. split.
    + intros [->|[r Hr]].
      * exists root. apply lookup_insert_eq.
      * exists r. rewrite lookup_insert_ne; [done|]. intros ->. congruence.
    + intros [r [[_ <-]|[_ H]]%lookup_insert_Some]; [by left|].
      right. by exists r.
  - intros d [->%elem_of_singleton|H%Hused]%elem_of_union; lia.
Qed.

Lemma serverStatusUpdates_disciplined statusUpdates :
  disciplined
    (serverStatusUpdatesToBusyMessages nuclideUriToDisplayString statusUpdates).
Proof.
  induction statusUpdates as [|update statusUpdates IH] using rev_ind.
  - exists ∅, ∅. split; [done|]. split.
    + intros d. split; [by intros ?%elem_of_empty|].
      intros [root H]. change ((∅ : gmap string nat) !! root = Some d) in H.
      by rewrite lookup_empty in H.
    + by intros d ?%elem_of_empty.
  - rewrite serverStatusUpdates_snoc. unfold next.
    apply subscribeInner_disciplined; [apply unsubscribeInner_lookup|].
    apply unsubscribeInner_disciplined; [|done].
    apply serverStatusUpdates_consistent.
Qed.

(** X17. With [completingSwitchMap] as modelled, whatever the updates, the calls
    of the busy-signal service keep the rule of [readLog]: every message is
    reported under a new disposable, and a disposable is only disposed of
    while its message is shown, so never twice and never before its report.
    The messages that are still shown are exactly those that the
    subscription holds a disposable for, each for one root only. *)
Theorem busy_calls_never_dispose_twice
    (statusUpdates : list ServerStatusUpdate) :
  let s :=
    serverStatusUpdatesToBusyMessages nuclideUriToDisplayString statusUpdates in
  exists live used,
    readLog (calls s) = Some (live, used)
    /\ live ⊆ used
    /\ (forall d,
          d ∈ live <-> exists root, innerSubscription s !! root = Some d)
    /\ (forall root root' d,
          innerSubscription s !! root = Some d ->
          innerSubscription s !! root' = Some d -> root = root').
Proof.
  intros s.
  destruct (serverStatusUpdates_disciplined statusUpdates)
    as (live & used & Hlog & Hlive & Hused).
  fold s in Hlog, Hlive, Hused.
  exists live, used. split; [done|]. split; [|split; [done|]].
  2: { apply held_distinct.
       apply (serverStatusUpdates_consistent nuclideUriToDisplayString). }
  clear Hlive Hused. revert live used Hlog. generalize (calls s).
  intros log. induction log as [|call log IH] using rev_ind.
  - intros live used [= <- <-]. done.
  - intros live used. rewrite readLog_snoc.
    destruct (readLog log) as [[live0 used0]|]; [|done].
    specialize (IH live0 used0 eq_refl).
    destruct call as [text d|d]; cbn [readCall]; destruct (decide _);
      try done; intros [= ? ?]; subst.
    + by apply union_mono_l.
    + intros x [Hx _]%elem_of_difference. by apply IH.
Qed.

Lemma busyMessage_isBusy update :
  is_Some (busyMessage nuclideUriToDisplayString update)
  <-> isBusy update = true.
Proof.
  unfold busyMessage, isBusy.
  by destruct (_ || _); split; try done; intros [? [=]].
Qed.

(** X18. With [completingSwitchMap] as modelled, a message is reported once for
    every update whose status is [init] or [busy], and for no other; and
    every message reported is either disposed of or still held for its
    root: none is left showing without a way to take it away. *)
Theorem busy_calls_count (statusUpdates : list ServerStatusUpdate) :
  let s :=
    serverStatusUpdatesToBusyMessages nuclideUriToDisplayString statusUpdates in
  length (reported (calls s)) = length (filter isBusy statusUpdates)
  /\ (length (disposed (calls s)) + size (innerSubscription s))%nat
     = length (reported (calls s)).
Proof.
  induction statusUpdates as [|update statusUpdates IH] using rev_ind;
    [done|].
  cbv zeta in IH |- *. rewrite serverStatusUpdates_snoc.
  set (s := serverStatusUpdatesToBusyMessages _ statusUpdates) in *.
  destruct IH as [IHr IHd]. rewrite filter_app, length_app, <- IHr.
  assert (Hun :
    let s1 := unsubscribeInner (pathToRoot update) s in
    length (reported (calls s1)) = length (reported (calls s))
    /\ (length (disposed (calls s1)) + size (innerSubscription s1))%nat
       = length (reported (calls s))).
  { unfold unsubscribeInner.
    destruct (innerSubscription s !! pathToRoot update) as [d|] eqn:E;
      [|done].
    cbn [calls innerSubscription]. unfold reported, disposed.
    rewrite !omap_app, !length_app. cbn [omap list_omap length].
    assert (size (innerSubscription s)
            = S (size (delete (pathToRoot update) (innerSubscription s)))).
    { rewrite <- (insert_delete_id (innerSubscription s) _ _ E) at 1.
      apply map_size_insert_None, lookup_delete_eq. }
    fold (reported (calls s)) (disposed (calls s)). rewrite Nat.add_0_r.
    split; [done|]. unfold reported, disposed in *. lia. }
  cbv zeta in Hun. destruct Hun as [Hr Hd]. unfold next.
  pose proof (unsubscribeInner_lookup (pathToRoot update) s) as Hnone.
  set (s1 := unsubscribeInner (pathToRoot update) s) in *.
  pose proof (busyMessage_isBusy update) as Hbusy.
  destruct (busyMessage nuclideUriToDisplayString update) as [text|].
  - rewrite filter_cons_True, filter_nil
      by (apply Is_true_true, Hbusy; by eexists).
    cbn [subscribeInner calls innerSubscription]. unfold reported, disposed.
    rewrite !omap_app, !length_app. cbn [omap list_omap length].
    rewrite map_size_insert_None by done.
    unfold reported, disposed in *. lia.
  - rewrite filter_cons_False, filter_nil.
    2: { intros H%Is_true_true. apply Hbusy in H as [? [=]]. }
    cbn [subscribeInner length]. lia.
Qed.

End FlowBusyLogFacts.

(** ** The properties above, on the sample inputs *)

Section MoreExamples.
Import Js DisplayPaths ChangedFilesList RemoteProjectsService Samples.

Lemma computeDisplayPaths_cap_one_witness :
  computeDisplayPaths posixSeparatorFor ["/a/b/c.js"; "/a/d/c.js"] 1 !! 0%nat
  = last (segments posixSeparatorFor "/a/b/c.js").
Proof.
  apply (computeDisplayPaths_cap_one posixSeparatorFor
           ["/a/b/c.js"; "/a/d/c.js"] 1 0 "/a/b/c.js"); [lia|reflexivity].
Defined.

Lemma computeDisplayPaths_cap_monotone_witness :
  exists k k' : nat,
    (1 <= k <= k')%nat
    /\ (k' <= length (segments posixSeparatorFor "/a/b/c.js"))%nat
    /\ computeDisplayPaths posixSeparatorFor ["/a/b/c.js"; "/a/d/c.js"] 1
         !! 0%nat
       = Some (join "/" (lastSegments posixSeparatorFor k "/a/b/c.js"))
    /\ computeDisplayPaths posixSeparatorFor ["/a/b/c.js"; "/a/d/c.js"] 5
         !! 0%nat
       = Some (join "/" (lastSegments posixSeparatorFor k' "/a/b/c.js")).
Proof.
  apply (computeDisplayPaths_cap_monotone posixSeparatorFor
           ["/a/b/c.js"; "/a/d/c.js"] 1 5 0 "/a/b/c.js"); [lia|reflexivity].
Defined.

Lemma computeDisplayPaths_inherited_extends_witness :
  exists k : nat,
    (2 <= k <= length (segments posixSeparatorFor "/a/constructor"))%nat
    /\ computeDisplayPaths posixSeparatorFor ["/a/constructor"] 5 !! 0%nat
       = Some (join "/" (lastSegments posixSeparatorFor k "/a/constructor")).
Proof.
  apply (computeDisplayPaths_inherited_extends posixSeparatorFor
           ["/a/constructor"] 5 0 "/a/constructor" "constructor");
    [lia|reflexivity|reflexivity|reflexivity|vm_compute; lia].
Defined.

Lemma computeDisplayPaths_distinct_below_cap_witness :
  exists k : nat,
    Z.of_nat k = Z.max 1 2
    /\ computeDisplayPaths posixSeparatorFor ["/x/a/b"; "/y/a/b"] 2 !! 0%nat
       = Some (join "/" (lastSegments posixSeparatorFor k "/x/a/b"))
    /\ computeDisplayPaths posixSeparatorFor ["/x/a/b"; "/y/a/b"] 2 !! 1%nat
       = Some (join "/" (lastSegments posixSeparatorFor k "/y/a/b")).
Proof.
  apply (computeDisplayPaths_distinct_below_cap posixSeparatorFor
           ["/x/a/b"; "/y/a/b"] 2 0 1 "/x/a/b" "/y/a/b").
  - by apply (bool_decide_unpack _).
  - repeat constructor.
  - repeat constructor; intros b Hb; vm_compute in Hb;
      injection Hb as <-; reflexivity.
  - lia.
  - reflexivity.
  - reflexivity.
  - vm_compute. reflexivity.
Defined.

Lemma computeDisplayPaths_order_independent_witness :
  computeDisplayPaths posixSeparatorFor ["/a/b/c.js"; "/a/d/c.js"] 5 !! 0%nat
  = computeDisplayPaths posixSeparatorFor ["/a/d/c.js"; "/a/b/c.js"] 5 !! 1%nat.
Proof.
  apply (computeDisplayPaths_order_independent posixSeparatorFor
           ["/a/b/c.js"; "/a/d/c.js"] ["/a/d/c.js"; "/a/b/c.js"] 5 0 1
           "/a/b/c.js").
  - apply perm_swap.
  - repeat constructor; intros b Hb; vm_compute in Hb;
      injection Hb as <-; reflexivity.
  - apply slashFree_posix. repeat constructor.
  - reflexivity.
  - reflexivity.
Defined.

Lemma render_file_status_witness :
  exists node file,
    renderExample threeFiles ChangedFilesList.initialState = Returns node
    /\ file ∈ renderedFiles node
    /\ cfFilePath file ∈ Map_keys (fileStatuses threeFiles)
    /\ Map_get (fileStatuses threeFiles) (cfFilePath file)
       = Some (cfFileStatus file).
Proof.
  eexists _, _. split; [vm_compute; reflexivity|].
  split; [apply list_elem_of_here|].
  refine (let H :=
            render_file_status nat string posixSeparatorFor lastSegment
              (fun _ => Some "hg") compareStrings insertionSort
              threeFiles ChangedFilesList.initialState _ _
              insertionSort_Permutation _ _ in
          conj (proj1 H) (proj1 (proj2 H))).
  - vm_compute. reflexivity.
  - apply list_elem_of_here.
Defined.

Lemma render_file_displayPath_witness :
  exists node file,
    renderExample threeFiles ChangedFilesList.initialState = Returns node
    /\ file ∈ renderedFiles node
    /\ exists k : nat,
         (1 <= k <= 5)%nat
         /\ (k <= length (segments posixSeparatorFor (cfFilePath file)))%nat
         /\ cfDisplayPath file
            = Some (join "/"
                      (lastSegments posixSeparatorFor k (cfFilePath file))).
Proof.
  eexists _, _. split; [vm_compute; reflexivity|].
  split; [apply list_elem_of_here|].
  refine (render_file_displayPath nat string posixSeparatorFor lastSegment
            (fun _ => Some "hg") compareStrings insertionSort
            threeFiles ChangedFilesList.initialState _ _
            insertionSort_Permutation _ _).
  - vm_compute. reflexivity.
  - apply list_elem_of_here.
Defined.

Lemma render_count_witness :
  exists node,
    renderExample threeFiles ChangedFilesList.initialState = Returns node
    /\ length (renderedFiles node) = 3%nat.
Proof.
  eexists. split; [vm_compute; reflexivity|].
  refine (proj1 (render_count nat string posixSeparatorFor lastSegment
                   (fun _ => Some "hg") compareStrings insertionSort
                   threeFiles ChangedFilesList.initialState _
                   insertionSort_Permutation _)).
  vm_compute. reflexivity.
Defined.

Lemma render_click_shows_more_witness :
  exists node more,
    renderExample manyFiles ChangedFilesList.initialState = Returns node
    /\ renderedShowMore node = Some more
    /\ exists node',
         renderExample manyFiles (onClick more ChangedFilesList.initialState)
         = Returns node'
         /\ (length (renderedFiles node) < length (renderedFiles node')
             <= length (renderedFiles node) + 100)%nat.
Proof.
  eexists _, _. split; [vm_compute; reflexivity|].
  split; [vm_compute; reflexivity|].
  refine (render_click_shows_more nat string posixSeparatorFor lastSegment
            (fun _ => Some "hg") compareStrings insertionSort
            manyFiles ChangedFilesList.initialState _ _
            insertionSort_Permutation _ _).
  - vm_compute. reflexivity.
  - vm_compute. reflexivity.
Defined.

Lemma render_keys_distinct_witness :
  exists node,
    renderExample threeFiles ChangedFilesList.initialState = Returns node
    /\ NoDup (map (cfKey _ _) (renderedFiles node)).
Proof.
  eexists. split; [vm_compute; reflexivity|].
  refine (render_keys_distinct nat string posixSeparatorFor lastSegment
            (fun _ => Some "hg") compareStrings insertionSort
            threeFiles ChangedFilesList.initialState _
            insertionSort_Permutation _ _).
  - by apply (bool_decide_unpack _).
  - vm_compute. reflexivity.
Defined.

Lemma createRemoteConnection_dialog_only_after_null_witness :
  run (fun _ : Call => @Throws (option nat) "connection refused")
    (createRemoteConnection
       {| host := "devserver"; path := "/home/user/project";
          displayTitle := "project";
          promptReconnectOnFailure := Some true |})
  = ([RemoteConnection_reconnect "devserver" "/home/user/project" "project"
        true], Throws "connection refused").
Proof.
  exact (proj1
    (createRemoteConnection_dialog_only_after_null nat
       (fun _ : Call => @Throws (option nat) "connection refused")
       {| host := "devserver"; path := "/home/user/project";
          displayTitle := "project";
          promptReconnectOnFailure := Some true |}) _ eq_refl).
Defined.

Lemma findIndirectReferences_results_pass_guards_witness :
  FindIndirectReferences.viewResults [1%nat; 2%nat]
    ∈ (FindIndirectReferences.findIndirectReferences oneEditor (Some 3%nat)
         true).1.2
  /\ FindIndirectReferences.customFindReferences oneEditor tt 1%nat 3%nat
       true true
     = Some (FindIndirectReferences.data [1%nat; 2%nat]).
Proof.
  assert (Hin : FindIndirectReferences.viewResults [1%nat; 2%nat]
                ∈ (FindIndirectReferences.findIndirectReferences oneEditor
                     (Some 3%nat) true).1.2).
  { right. left. }
  split; [exact Hin|].
  destruct (findIndirectReferences_results_pass_guards oneEditor
              (Some 3%nat) true [1%nat; 2%nat] Hin)
    as ([] & path & [] & getForUri & [] & fileVersion & _ & _ & _ & Hcache
        & _ & Hversion & Hfound).
  injection Hversion as <-. exact Hfound.
Defined.

End MoreExamples.
